(** * Guardrail: the three input guardrails of [main.py]

    A shallow embedding of [class_timing_guardrail], [father_temp_guardrail]
    and [gatekeeper_guardrail], with the part of Python's [str] and [re]
    they call, followed by the properties of the three predicates.

    Text is a list of characters, one [ascii] per code point of the range
    U+0000..U+00FF (Latin-1): the range holds every character the source
    writes (the degree sign is U+00B0) and [str.lower] maps it into itself,
    one code point to one code point. *)

From Stdlib Require Import String Ascii List ZArith Bool Arith Lia.
Import ListNotations.

Definition chars := list ascii.

(** A literal of the source, as text. *)
Definition str (s : string) : chars := list_ascii_of_string s.

(* ================================================================== *)
(** ** The [str] methods the guardrails call *)
(* ================================================================== *)

Module PyStr.

Definition between (lo hi n : nat) : bool := (lo <=? n) && (n <=? hi).

(** [str.lower] on one code point: A-Z, and the Latin-1 capitals
    U+00C0..U+00DE without the multiplication sign U+00D7, move up by 32. *)
Definition lower_char (c : ascii) : ascii :=
  let n := nat_of_ascii c in
  if between 65 90 n || between 192 214 n || between 216 222 n
  then ascii_of_nat (n + 32) else c.

Definition lower (s : chars) : chars := map lower_char s.

(** [str.isspace], which is also [\s] and what [str.strip] removes. *)
Definition isspace (c : ascii) : bool :=
  let n := nat_of_ascii c in
  between 9 13 n || between 28 32 n || (n =? 133) || (n =? 160).

(** [\d]: the decimal digits; in this range, 0-9 only. *)
Definition isdecimal (c : ascii) : bool := between 48 57 (nat_of_ascii c).

(** [\w]: [str.isalnum] or the underscore. *)
Definition isword (c : ascii) : bool :=
  let n := nat_of_ascii c in
  between 48 57 n || between 65 90 n || (n =? 95) || between 97 122 n
  || (n =? 170) || between 178 179 n || (n =? 181) || between 185 186 n
  || between 188 190 n || between 192 214 n || between 216 246 n
  || between 248 255 n.

(** [s.startswith(p)] *)
Fixpoint startswith (p s : chars) : bool :=
  match p, s with
  | [], _ => true
  | _ :: _, [] => false
  | a :: p', b :: s' => Ascii.eqb a b && startswith p' s'
  end.

(** [needle in hay] *)
Fixpoint contains (needle hay : chars) : bool :=
  startswith needle hay ||
  match hay with
  | [] => false
  | _ :: hay' => contains needle hay'
  end.

Fixpoint lstrip (s : chars) : chars :=
  match s with
  | c :: s' => if isspace c then lstrip s' else s
  | [] => []
  end.

Definition rstrip (s : chars) : chars := rev (lstrip (rev s)).

(** [s.strip()] *)
Definition strip (s : chars) : chars := rstrip (lstrip s).

(** [sep.join(parts)] *)
Fixpoint join (sep : chars) (parts : list chars) : chars :=
  match parts with
  | [] => []
  | [p] => p
  | p :: ps => p ++ sep ++ join sep ps
  end.

Definition digit_value (c : ascii) : Z := Z.of_nat (nat_of_ascii c - 48).

Fixpoint int_acc (acc : Z) (s : chars) : option Z :=
  match s with
  | [] => Some acc
  | c :: s' =>
      if isdecimal c then int_acc (10 * acc + digit_value c)%Z s' else None
  end.

(** [int(s)] on the strings the guardrail passes to it, the non-empty
    runs of decimal digits.  [None] stands for every other argument,
    where [int] raises or reads a sign, blanks or underscores. *)
Definition int (s : chars) : option Z :=
  match s with
  | [] => None
  | _ :: _ => int_acc 0 s
  end.

End PyStr.

(* ================================================================== *)
(** ** The fragment of [re] the two patterns use *)
(* ================================================================== *)

Module Re.

Inductive category := CategoryDigit | CategorySpace | CategoryWord.

(** One member of a set [[...]]. *)
Inductive set_item :=
| SChar (c : ascii)
| SRange (lo hi : ascii)
| SCategory (k : category).

(** Parsed patterns.  [Repeat lo hi r] is the greedy repetition:
    [r*] is [Repeat 0 None r], [r+] is [Repeat 1 None r], [r?] is
    [Repeat 0 (Some 1) r] and [r{1,2}] is [Repeat 1 (Some 2) r]. *)
Inductive regex :=
| Empty
| Literal (c : ascii)
| InSet (items : list set_item)
| AtBoundary
| Seq (r1 r2 : regex)
| Branch (r1 r2 : regex)
| Repeat (lo : nat) (hi : option nat) (r : regex)
| Group (n : nat) (r : regex).

Definition in_category (k : category) (c : ascii) : bool :=
  match k with
  | CategoryDigit => PyStr.isdecimal c
  | CategorySpace => PyStr.isspace c
  | CategoryWord => PyStr.isword c
  end.

Definition in_item (c : ascii) (i : set_item) : bool :=
  match i with
  | SChar x => Ascii.eqb c x
  | SRange lo hi =>
      PyStr.between (nat_of_ascii lo) (nat_of_ascii hi) (nat_of_ascii c)
  | SCategory k => in_category k c
  end.

Definition in_set (items : list set_item) (c : ascii) : bool :=
  existsb (in_item c) items.

(** The matcher's state: the character before the position (for [\b]),
    the text from the position on, and the groups closed so far. *)
Record mstate := MState {
  prev : option ascii;
  rest : chars;
  groups : list (nat * chars)
}.

Definition advance (st : mstate) : list mstate :=
  match rest st with
  | c :: tl => [MState (Some c) tl (groups st)]
  | [] => []
  end.

Definition word_at (c : option ascii) : bool :=
  match c with
  | Some x => PyStr.isword x
  | None => false
  end.

(** What was consumed between [st] and a later state [st']. *)
Definition consumed (st st' : mstate) : chars :=
  firstn (length (rest st) - length (rest st')) (rest st).

Definition close_group (n : nat) (st st' : mstate) : mstate :=
  MState (prev st') (rest st') ((n, consumed st st') :: groups st').

Definition dec_hi (hi : option nat) : option nat := option_map pred hi.

Definition hi_is_zero (hi : option nat) : bool :=
  match hi with
  | Some 0 => true
  | _ => false
  end.

(** Greedy repetition of [step]: one more iteration is tried before
    stopping here; an iteration that consumes nothing ends the loop. *)
Fixpoint repeat_loop (step : mstate -> list mstate) (fuel lo : nat)
         (hi : option nat) (st : mstate) : list mstate :=
  let stop := if lo =? 0 then [st] else [] in
  match fuel with
  | 0 => stop
  | S fuel' =>
      (if hi_is_zero hi then []
       else flat_map
              (fun st' =>
                 if length (rest st') <? length (rest st)
                 then repeat_loop step fuel' (pred lo) (dec_hi hi) st'
                 else [])
              (step st))
      ++ stop
  end.

(** Every way [r] matches at [st], in the order in which the
    backtracking matcher of [re] tries them: its match is the head. *)
Fixpoint matches (r : regex) (st : mstate) : list mstate :=
  match r with
  | Empty => [st]
  | Literal c =>
      match rest st with
      | x :: _ => if Ascii.eqb x c then advance st else []
      | [] => []
      end
  | InSet items =>
      match rest st with
      | x :: _ => if in_set items x then advance st else []
      | [] => []
      end
  | AtBoundary =>
      if xorb (word_at (prev st)) (word_at (hd_error (rest st)))
      then [st] else []
  | Seq r1 r2 => flat_map (matches r2) (matches r1 st)
  | Branch r1 r2 => matches r1 st ++ matches r2 st
  | Repeat lo hi r' =>
      repeat_loop (matches r') (length (rest st)) lo hi st
  | Group n r' => map (close_group n st) (matches r' st)
  end.

(** [re.search] from the position whose text is [s]: the first position,
    left to right, where the pattern matches. *)
Fixpoint search_from (r : regex) (before : option ascii) (s : chars)
  : option mstate :=
  match matches r (MState before s []) with
  | m :: _ => Some m
  | [] =>
      match s with
      | [] => None
      | c :: s' => search_from r (Some c) s'
      end
  end.

(** [re.search(r, s)] *)
Definition search (r : regex) (s : chars) : option mstate :=
  search_from r None s.

Fixpoint lookup_group (n : nat) (gs : list (nat * chars)) : option chars :=
  match gs with
  | [] => None
  | (k, g) :: gs' => if k =? n then Some g else lookup_group n gs'
  end.

(** [m.group(n)]; [None] is Python's [None], a group that took no part. *)
Definition group (n : nat) (m : mstate) : option chars :=
  lookup_group n (groups m).

(** A run of literals followed by [r]. *)
Fixpoint lits (s : chars) (r : regex) : regex :=
  match s with
  | [] => r
  | c :: s' => Seq (Literal c) (lits s' r)
  end.

End Re.

(* ================================================================== *)
(** ** The guardrails *)
(* ================================================================== *)

(** A Python object as the guardrails see one: a [str], or any other
    object with its attributes and the text [str()] gives for it. *)
#[warnings="-register-all"]
Inductive pyobj :=
| PyStr (s : chars)
| PyObj (attrs : list (string * pyobj)) (repr : chars).

(** The guardrails' [input: str | list].  [InputList] is what
    [isinstance(input, list)] accepts; anything else is [InputOther]. *)
Inductive guardrail_input :=
| InputList (items : list pyobj)
| InputOther (v : pyobj).

(** The values the guardrails store in [output_info]. *)
Inductive pyval :=
| VNone
| VBool (b : bool)
| VInt (z : Z)
| VStr (s : chars).

(** A dict literal, in the order it is written. *)
Definition dict := list (string * pyval).

Record GuardrailFunctionOutput := mkOutput {
  output_info : dict;
  tripwire_triggered : bool
}.

Fixpoint lookup_attr (name : string) (attrs : list (string * pyobj))
  : option pyobj :=
  match attrs with
  | [] => None
  | (k, v) :: attrs' =>
      if String.eqb k name then Some v else lookup_attr name attrs'
  end.

(** [getattr(o, name, default)] *)
Definition getattr (o : pyobj) (name : string) (default : pyobj) : pyobj :=
  match o with
  | PyStr _ => default
  | PyObj attrs _ =>
      match lookup_attr name attrs with
      | Some v => v
      | None => default
      end
  end.

(** [str(o)] *)
Definition py_str (o : pyobj) : chars :=
  match o with
  | PyStr s => s
  | PyObj _ r => r
  end.

(** [d.get(key)] *)
Fixpoint dict_get (key : string) (d : dict) : option pyval :=
  match d with
  | [] => None
  | (k, v) :: d' => if String.eqb k key then Some v else dict_get key d'
  end.

Definition degree_sign : ascii := ascii_of_nat 176.

Module Guardrail.
Import PyStr Re.

(** The first lines of each guardrail: the input as one string. *)
Definition unified (input : guardrail_input) : chars :=
  match input with
  | InputList items =>
      join (str " ") (map (fun i => py_str (getattr i "content" i)) items)
  | InputOther v => py_str v
  end.

(** [text = unified.lower()] *)
Definition normalized (input : guardrail_input) : chars :=
  lower (unified input).

Definition class_timing_guardrail (input : guardrail_input)
  : GuardrailFunctionOutput :=
  let unified := unified input in
  let text := lower unified in
  if contains (str "change my class timing") text
     || contains (str "change my class timings") text
  then mkOutput [("reason"%string,
                  VStr (str "user asked to change class timings"));
                 ("text"%string, VStr unified)] true
  else mkOutput [("ok"%string, VBool true);
                 ("text"%string, VStr unified)] false.

Definition digit := InSet [SCategory CategoryDigit].
Definition spaces := Repeat 0 None (InSet [SCategory CategorySpace]).

(** [(?:\s*°\s*c|\s*°c|\s*c\b|°| degrees)?] *)
Definition temp_unit : regex :=
  Repeat 0 (Some 1)
    (Branch
       (Seq spaces (Seq (Literal degree_sign) (Seq spaces (Literal "c"))))
       (Branch
          (Seq spaces (Seq (Literal degree_sign) (Literal "c")))
          (Branch
             (Seq spaces (Seq (Literal "c") AtBoundary))
             (Branch (Literal degree_sign)
                     (lits (str " degrees") Empty))))).

(** [(\d{1,2})(?:\s*°\s*c|\s*°c|\s*c\b|°| degrees)?] *)
Definition temp_pattern : regex :=
  Seq (Group 1 (Repeat 1 (Some 2) digit)) temp_unit.

(** [None] is an exception: [m.group(1)] is not a string [int] reads. *)
Definition father_temp_guardrail (input : guardrail_input)
  : option GuardrailFunctionOutput :=
  let unified := unified input in
  let text := lower unified in
  match search temp_pattern text with
  | Some m =>
      match group 1 m with
      | Some g =>
          match int g with
          | Some temp =>
              let info := [("detected_temp"%string, VInt temp);
                           ("text"%string, VStr unified)] in
              if (temp <? 26)%Z
              then Some (mkOutput info true)
              else Some (mkOutput info false)
          | None => None
          end
      | None => None
      end
  | None =>
      Some (mkOutput [("detected_temp"%string, VNone);
                      ("text"%string, VStr unified)] false)
  end.

Definition triggers : list chars :=
  [ str "other school";
    str "different school";
    str "not from my school";
    str "from other school";
    str "student from " ].

(** The [for t in triggers] loop: the first [t] with [t in text]. *)
Fixpoint first_trigger (ts : list chars) (text : chars) : option chars :=
  match ts with
  | [] => None
  | t :: ts' => if contains t text then Some t else first_trigger ts' text
  end.

(** [[:\s-]*] *)
Definition separators : regex :=
  Repeat 0 None (InSet [SChar ":"; SCategory CategorySpace; SChar "-"]).

(** [([a-z0-9 ]+)] *)
Definition name_group : regex :=
  Group 1 (Repeat 1 None (InSet [SRange "a" "z"; SRange "0" "9"; SChar " "])).

(** [school[:\s-]*([a-z0-9 ]+)] *)
Definition school_pattern : regex :=
  lits (str "school") (Seq separators name_group).

(** [None] is an exception: [m.group(1)] is [None], which has no
    [strip]. *)
Definition gatekeeper_guardrail (input : guardrail_input)
  : option GuardrailFunctionOutput :=
  let unified := unified input in
  let text := lower unified in
  let allowed := mkOutput [("allowed"%string, VBool true);
                           ("text"%string, VStr unified)] false in
  if contains (str "from my school") text
     || contains (str "my school student") text
  then Some allowed
  else
    match first_trigger triggers text with
    | Some _ =>
        Some (mkOutput [("reason"%string,
                         VStr (str "other school detected"));
                        ("text"%string, VStr unified)] true)
    | None =>
        match search school_pattern text with
        | Some m =>
            match group 1 m with
            | Some g =>
                let school_name := strip g in
                if negb (contains (str "my school") school_name)
                then Some (mkOutput
                             [("school_name"%string, VStr school_name);
                              ("text"%string, VStr unified)] true)
                else Some allowed
            | None => None
            end
        | None => Some allowed
        end
    end.

End Guardrail.

(* ================================================================== *)
(** ** What the patterns find, stated without the matcher *)
(* ================================================================== *)

Module Found.
Import PyStr Re Guardrail.

(** [needle] occurs in [hay]. *)
Definition Substring (needle hay : chars) : Prop :=
  exists pre post, hay = pre ++ needle ++ post.

(** The longest prefix of [s] in the class [p], of at most [hi]
    characters when [hi] is a bound, and what follows it. *)
Fixpoint take_run (p : ascii -> bool) (hi : option nat) (s : chars)
  : chars :=
  match s with
  | c :: s' =>
      if hi_is_zero hi then []
      else if p c then c :: take_run p (dec_hi hi) s' else []
  | [] => []
  end.

Fixpoint drop_run (p : ascii -> bool) (hi : option nat) (s : chars)
  : chars :=
  match s with
  | c :: s' =>
      if hi_is_zero hi then s
      else if p c then drop_run p (dec_hi hi) s' else s
  | [] => []
  end.

Definition is_sep : ascii -> bool :=
  in_set [SChar ":"; SCategory CategorySpace; SChar "-"].

Definition is_name : ascii -> bool :=
  in_set [SRange "a" "z"; SRange "0" "9"; SChar " "].

Definition is_digit : ascii -> bool :=
  in_set [SCategory CategoryDigit].

(** What [here] finds at the first position of [s], left to right,
    where it finds something. *)
Fixpoint first_found (here : chars -> option chars) (s : chars)
  : option chars :=
  match here s with
  | Some g => Some g
  | None =>
      match s with
      | [] => None
      | _ :: s' => first_found here s'
      end
  end.

Definition digit_group_here (s : chars) : option chars :=
  match take_run is_digit (Some 2) s with
  | (_ :: _) as g => Some g
  | [] => None
  end.

(** The first digit of [s] with the digit after it, if there is one. *)
Definition first_digit_group : chars -> option chars :=
  first_found digit_group_here.

(** [g] is the first group of one or two digits of [t]: no digit before
    it, and a single digit only where no digit follows. *)
Definition FirstDigitGroup (t g : chars) : Prop :=
  exists pre post,
    t = pre ++ g ++ post
    /\ Forall (fun c => isdecimal c = false) pre
    /\ Forall (fun c => isdecimal c = true) g
    /\ 1 <= length g <= 2
    /\ (length g = 2
        \/ match post with
           | c :: _ => isdecimal c = false
           | [] => True
           end).

Definition name_run (s : chars) : option chars :=
  match take_run is_name None s with
  | (_ :: _) as g => Some g
  | [] => None
  end.

(** After the marker: the separators are taken as far as a name still
    follows them, and the name as far as it goes. *)
Fixpoint capture_after (s : chars) : option chars :=
  match s with
  | c :: s' =>
      if is_sep c
      then match capture_after s' with
           | Some g => Some g
           | None => name_run s
           end
      else name_run s
  | [] => None
  end.

Definition capture_here (t : chars) : option chars :=
  if startswith (str "school") t then capture_after (skipn 6 t) else None.

(** The name captured at the first marker that has one. *)
Definition school_capture : chars -> option chars :=
  first_found capture_here.

(** [t] has the marker, separators, and then the non-empty run [g] of
    lowercase letters, digits and spaces. *)
Definition SchoolMatch (t g : chars) : Prop :=
  exists pre seps post,
    t = pre ++ str "school" ++ seps ++ g ++ post
    /\ Forall (fun c => is_sep c = true) seps
    /\ g <> []
    /\ Forall (fun c => is_name c = true) g.

(** [g] is the name the pattern captures in [t]: it follows the first
    marker that has a name after it, the separators before it are taken
    as far as a name still follows them, and it runs as far as it can. *)
Definition FirstSchoolCapture (t g : chars) : Prop :=
  exists pre seps post,
    t = pre ++ str "school" ++ seps ++ g ++ post
    /\ Forall (fun c => is_sep c = true) seps
    /\ g <> []
    /\ Forall (fun c => is_name c = true) g
    /\ match post with c :: _ => is_name c = false | [] => True end
    /\ (forall pre' seps' g' post',
           t = pre' ++ str "school" ++ seps' ++ g' ++ post' ->
           Forall (fun c => is_sep c = true) seps' ->
           g' <> [] ->
           Forall (fun c => is_name c = true) g' ->
           length pre <= length pre')
    /\ (forall seps' g' post',
           seps ++ g ++ post = seps' ++ g' ++ post' ->
           Forall (fun c => is_sep c = true) seps' ->
           g' <> [] ->
           Forall (fun c => is_name c = true) g' ->
           length seps' <= length seps).

Fixpoint group_free (r : regex) : bool :=
  match r with
  | Empty | Literal _ | InSet _ | AtBoundary => true
  | Seq r1 r2 | Branch r1 r2 => group_free r1 && group_free r2
  | Repeat _ _ r' => group_free r'
  | Group _ _ => false
  end.

(** [skip k st]: [st] moved over [k] characters. *)
Fixpoint skip (k : nat) (st : mstate) : mstate :=
  match k, rest st with
  | S k', c :: tl => skip k' (MState (Some c) tl (groups st))
  | _, _ => st
  end.

(** The head of a list of matches has [o] as its group 1. *)
Definition head_group (l : list mstate) (o : option chars) : Prop :=
  match l, o with
  | [], None => True
  | m :: _, Some g => group 1 m = Some g
  | _, _ => False
  end.

(** The match of a search has [o] as its group 1. *)
Definition found_group (m : option mstate) (o : option chars) : Prop :=
  match m, o with
  | None, None => True
  | Some m, Some g => group 1 m = Some g
  | _, _ => False
  end.

(** The element of a sequence as the normalizer reads it: its
    [content] when it has one, else its string form. *)
Definition element_text (i : pyobj) : chars :=
  match i with
  | PyStr s => s
  | PyObj attrs r =>
      match lookup_attr "content" attrs with
      | Some c => py_str c
      | None => r
      end
  end.

(** The parts in order, one space before each but the first. *)
Definition spaced (parts : list chars) : chars :=
  match parts with
  | [] => []
  | p :: ps => p ++ flat_map (fun q => " "%char :: q) ps
  end.

(** Normalization as the specification words it. *)
Definition spec_normalize (input : guardrail_input) : chars :=
  match input with
  | InputList items => lower (spaced (map element_text items))
  | InputOther v => lower (py_str v)
  end.

Definition allow_phrase (t : chars) : Prop :=
  Substring (str "from my school") t
  \/ Substring (str "my school student") t.

Definition deny_phrase (t : chars) : Prop :=
  exists d, In d triggers /\ Substring d t.

Definition info_allowed (u : chars) : dict :=
  [("allowed"%string, VBool true); ("text"%string, VStr u)].

Definition info_reason (u : chars) : dict :=
  [("reason"%string, VStr (str "other school detected"));
   ("text"%string, VStr u)].

Definition info_school (name u : chars) : dict :=
  [("school_name"%string, VStr name); ("text"%string, VStr u)].

Definition info_temp (temp : pyval) (u : chars) : dict :=
  [("detected_temp"%string, temp); ("text"%string, VStr u)].

End Found.

Import PyStr Re Guardrail Found.

(* ================================================================== *)
(** ** Lemmas on [str] *)
(* ================================================================== *)

Section StrLemmas.

Lemma startswith_app (p s : chars) : startswith p (p ++ s) = true.
Proof.
  induction p as [|a p IH]; simpl; [reflexivity|].
  now rewrite Ascii.eqb_refl, IH.
Qed.

Lemma startswith_inv (p s : chars) :
  startswith p s = true -> exists post, s = p ++ post.
Proof.
  revert s; induction p as [|a p IH]; intros s H; simpl in *.
  - now exists s.
  - destruct s as [|b s]; [discriminate|].
    apply andb_true_iff in H as [Hab Hp].
    apply Ascii.eqb_eq in Hab; subst b.
    destruct (IH _ Hp) as [post ->]. now exists post.
Qed.

Lemma contains_unfold (n h : chars) :
  contains n h
  = startswith n h || match h with [] => false | _ :: h' => contains n h' end.
Proof. destruct h; reflexivity. Qed.

Lemma contains_intro (n pre post : chars) :
  contains n (pre ++ n ++ post) = true.
Proof.
  induction pre as [|c pre IH]; simpl.
  - rewrite contains_unfold, startswith_app. reflexivity.
  - rewrite IH. apply orb_true_r.
Qed.

Lemma contains_inv (n h : chars) :
  contains n h = true -> Substring n h.
Proof.
  induction h as [|c h IH]; simpl; intros H.
  - rewrite orb_false_r in H.
    destruct (startswith_inv _ _ H) as [post E]. now exists [], post.
  - apply orb_true_iff in H as [H|H].
    + destruct (startswith_inv _ _ H) as [post E]. now exists [], post.
    + destruct (IH H) as (pre & post & ->). now exists (c :: pre), post.
Qed.

Lemma contains_spec (n h : chars) :
  contains n h = true <-> Substring n h.
Proof.
  split; [apply contains_inv|].
  intros (pre & post & ->). apply contains_intro.
Qed.

Lemma contains_false (n h : chars) :
  contains n h = false <-> ~ Substring n h.
Proof.
  split.
  - intros H S. apply contains_spec in S. congruence.
  - intros H. destruct (contains n h) eqn:E; [|reflexivity].
    elim H. now apply contains_spec.
Qed.

End StrLemmas.

(* ================================================================== *)
(** ** Lemmas on the matcher *)
(* ================================================================== *)

Section ReLemmas.

Lemma skip_rest k : forall st, rest (skip k st) = skipn k (rest st).
Proof.
  induction k as [|k IH]; intros [pv rs gs]; simpl.
  - reflexivity.
  - destruct rs as [|c tl]; simpl; [reflexivity|]. now rewrite IH.
Qed.

Lemma skip_groups k : forall st, groups (skip k st) = groups st.
Proof.
  induction k as [|k IH]; intros [pv rs gs]; simpl.
  - reflexivity.
  - destruct rs as [|c tl]; simpl; [reflexivity|]. now rewrite IH.
Qed.

Lemma matches_lits s r :
  forall st,
    matches (lits s r) st
    = if startswith s (rest st) then matches r (skip (length s) st) else [].
Proof.
  induction s as [|c s IH]; intros [pv rs gs]; simpl.
  - reflexivity.
  - destruct rs as [|x tl]; simpl; [reflexivity|].
    rewrite (Ascii.eqb_sym c x).
    destruct (Ascii.eqb x c); simpl; [|reflexivity].
    rewrite IH, app_nil_r. reflexivity.
Qed.

Lemma drop_run_length p : forall s hi, length (drop_run p hi s) <= length s.
Proof.
  induction s as [|c s IH]; intros hi; simpl; [lia|].
  destruct (hi_is_zero hi); simpl; [lia|].
  destruct (p c); simpl; [|lia]. specialize (IH (dec_hi hi)). lia.
Qed.

Lemma take_drop_run p : forall s hi, s = take_run p hi s ++ drop_run p hi s.
Proof.
  induction s as [|c s IH]; intros hi; simpl; [reflexivity|].
  destruct (hi_is_zero hi); [reflexivity|].
  destruct (p c); simpl; [|reflexivity]. now rewrite <- IH.
Qed.

Lemma take_run_Forall p :
  forall s hi, Forall (fun c => p c = true) (take_run p hi s).
Proof.
  induction s as [|c s IH]; intros hi; simpl; [constructor|].
  destruct (hi_is_zero hi); [constructor|].
  destruct (p c) eqn:E; [|constructor]. constructor; [exact E | apply IH].
Qed.

Lemma consumed_take_run p :
  forall s hi,
    firstn (length s - length (drop_run p hi s)) s = take_run p hi s.
Proof.
  induction s as [|c s IH]; intros hi; simpl; [reflexivity|].
  destruct (hi_is_zero hi); simpl.
  - now rewrite Nat.sub_diag.
  - destruct (p c); simpl.
    + pose proof (drop_run_length p s (dec_hi hi)) as Hle.
      destruct (length (drop_run p (dec_hi hi) s)) as [|n] eqn:E.
      * simpl. f_equal. rewrite <- (IH (dec_hi hi)), E, Nat.sub_0_r.
        reflexivity.
      * rewrite <- (IH (dec_hi hi)), E.
        replace (length s - n) with (S (length s - S n)) by lia.
        reflexivity.
    + now rewrite Nat.sub_diag.
Qed.

Lemma matches_seq r1 r2 st :
  matches (Seq r1 r2) st = flat_map (matches r2) (matches r1 st).
Proof. reflexivity. Qed.

Lemma matches_repeat lo hi r st :
  matches (Repeat lo hi r) st
  = repeat_loop (matches r) (length (rest st)) lo hi st.
Proof. reflexivity. Qed.

Lemma matches_group n r st :
  matches (Group n r) st = map (close_group n st) (matches r st).
Proof. reflexivity. Qed.

Lemma matches_set items st :
  matches (InSet items) st
  = match rest st with
    | x :: _ => if in_set items x then advance st else []
    | [] => []
    end.
Proof. reflexivity. Qed.

(** The greedy repetition of a set: its first result is the longest
    run, and there is none when the run is shorter than [lo]. *)
Lemma repeat_set_head items :
  forall fuel lo hi st,
    length (rest st) <= fuel ->
    match repeat_loop (matches (InSet items)) fuel lo hi st with
    | [] => length (take_run (in_set items) hi (rest st)) < lo
    | m :: _ =>
        lo <= length (take_run (in_set items) hi (rest st))
        /\ rest m = drop_run (in_set items) hi (rest st)
        /\ groups m = groups st
    end.
Proof.
  induction fuel as [|fuel IH]; intros lo hi [pv rs gs] Hf; simpl in Hf.
  - destruct rs; [|simpl in Hf; lia].
    simpl. destruct lo; simpl; [repeat split; lia | lia].
  - cbn [repeat_loop]. destruct rs as [|x tl].
    + cbn. destruct (hi_is_zero hi); destruct lo; cbn;
        try (repeat split; lia); lia.
    + cbn [rest take_run drop_run].
      destruct (hi_is_zero hi) eqn:Hz.
      * destruct lo; cbn; [repeat split; lia | lia].
      * rewrite matches_set. cbn [rest]. destruct (in_set items x) eqn:Hx.
        -- cbn [advance rest groups flat_map].
           replace (length tl <? length (x :: tl)) with true
             by (symmetry; apply Nat.ltb_lt; simpl; lia).
           rewrite app_nil_r.
           specialize (IH (pred lo) (dec_hi hi) (MState (Some x) tl gs)).
           cbn [rest groups] in IH.
           assert (Htl : length tl <= fuel) by (simpl in Hf; lia).
           specialize (IH Htl).
           destruct (repeat_loop (matches (InSet items)) fuel (pred lo)
                       (dec_hi hi) (MState (Some x) tl gs)) as [|m l].
           ++ destruct lo; [simpl in IH; lia|].
              cbn. simpl in IH. lia.
           ++ cbn. destruct IH as (H1 & H2 & H3).
              repeat split; [lia | exact H2 | exact H3].
        -- destruct lo; cbn; [repeat split; lia | lia].
Qed.

(** A group around the repetition of a set captures the longest run. *)
Lemma group_set_head n items lo hi st :
  match matches (Group n (Repeat lo hi (InSet items))) st with
  | [] => length (take_run (in_set items) hi (rest st)) < lo
  | m :: _ =>
      lo <= length (take_run (in_set items) hi (rest st))
      /\ rest m = drop_run (in_set items) hi (rest st)
      /\ groups m = (n, take_run (in_set items) hi (rest st)) :: groups st
  end.
Proof.
  rewrite matches_group, matches_repeat.
  pose proof (repeat_set_head items (length (rest st)) lo hi st (le_n _)) as H.
  destruct (repeat_loop (matches (InSet items)) (length (rest st)) lo hi st)
    as [|m l]; cbn [map]; [exact H|].
  destruct H as (H1 & H2 & H3). repeat split; [exact H1 | exact H2 |].
  unfold close_group, consumed; cbn [groups].
  rewrite H2, H3, consumed_take_run. reflexivity.
Qed.

Lemma repeat_loop_groups step :
  (forall st m, In m (step st) -> groups m = groups st) ->
  forall fuel lo hi st m,
    In m (repeat_loop step fuel lo hi st) -> groups m = groups st.
Proof.
  intros Hstep. induction fuel as [|fuel IH]; intros lo hi st m Hin.
  - simpl in Hin. destruct (lo =? 0); simpl in Hin; [|tauto].
    destruct Hin as [<-|[]]. reflexivity.
  - cbn [repeat_loop] in Hin. apply in_app_or in Hin as [Hin|Hin].
    + destruct (hi_is_zero hi); [destruct Hin|].
      apply in_flat_map in Hin as (st' & Hst' & Hin).
      destruct (length (rest st') <? length (rest st)); [|destruct Hin].
      rewrite (IH _ _ _ _ Hin). now apply Hstep.
    + destruct (lo =? 0); simpl in Hin; [|tauto].
      destruct Hin as [<-|[]]. reflexivity.
Qed.

(** A pattern without a group leaves the groups as they are. *)
Lemma group_free_groups r :
  group_free r = true ->
  forall st m, In m (matches r st) -> groups m = groups st.
Proof.
  induction r as [ | c | items | | r1 IH1 r2 IH2 | r1 IH1 r2 IH2
                 | lo hi r IH | n r IH ]; intros Hfree st m Hin;
    cbn [matches group_free] in *.
  - destruct Hin as [<-|[]]. reflexivity.
  - destruct st as [pv [|x tl] gs]; cbn in Hin; [destruct Hin|].
    destruct (Ascii.eqb x c); cbn in Hin; [|destruct Hin].
    destruct Hin as [<-|[]]. reflexivity.
  - destruct st as [pv [|x tl] gs]; cbn [rest advance] in Hin;
      [destruct Hin|].
    destruct (in_set items x); cbn in Hin; [|destruct Hin].
    destruct Hin as [<-|[]]. reflexivity.
  - destruct (xorb _ _); [|destruct Hin].
    destruct Hin as [<-|[]]. reflexivity.
  - apply andb_true_iff in Hfree as [F1 F2].
    apply in_flat_map in Hin as (st' & Hst' & Hin).
    rewrite (IH2 F2 _ _ Hin). now apply IH1.
  - apply andb_true_iff in Hfree as [F1 F2].
    apply in_app_or in Hin as [Hin|Hin]; [now apply IH1 | now apply IH2].
  - revert Hin. apply repeat_loop_groups. now apply IH.
  - discriminate.
Qed.

(** An optional part never fails. *)
Lemma repeat_from_zero step fuel hi st :
  exists l, repeat_loop step fuel 0 hi st = l ++ [st].
Proof.
  destruct fuel; cbn [repeat_loop Nat.eqb].
  - now exists [].
  - eexists. reflexivity.
Qed.

Lemma head_group_first (l1 l2 : list mstate) g :
  head_group l1 (Some g) -> head_group (l1 ++ l2) (Some g).
Proof. destruct l1; simpl; [tauto | trivial]. Qed.

Lemma head_group_none (l : list mstate) : head_group l None -> l = [].
Proof. destruct l; simpl; [reflexivity | tauto]. Qed.

Lemma group_lookup_head n g gs m :
  groups m = (n, g) :: gs -> group n m = Some g.
Proof.
  intros E. unfold group. rewrite E. simpl. now rewrite Nat.eqb_refl.
Qed.

(** The temperature pattern at one position. *)
Lemma temp_pattern_here st :
  head_group (matches temp_pattern st) (digit_group_here (rest st)).
Proof.
  unfold temp_pattern, digit_group_here. rewrite matches_seq.
  pose proof (group_set_head 1 [SCategory CategoryDigit] 1 (Some 2) st) as H.
  fold digit in H. fold is_digit in H.
  destruct (matches (Group 1 (Repeat 1 (Some 2) digit)) st) as [|m1 l].
  - destruct (take_run is_digit (Some 2) (rest st)); simpl in *; [trivial|lia].
  - destruct H as (H1 & _ & H3).
    destruct (take_run is_digit (Some 2) (rest st)) as [|d ds] eqn:E;
      [simpl in H1; lia|].
    cbn [flat_map]. apply head_group_first.
    assert (Hfree : group_free temp_unit = true) by reflexivity.
    pose proof (group_free_groups temp_unit Hfree m1) as Hg.
    assert (Hl : exists l', matches temp_unit m1 = l' ++ [m1])
      by (unfold temp_unit; rewrite matches_repeat; apply repeat_from_zero).
    destruct Hl as [l' El']. rewrite El' in Hg.
    rename Hg into Hm.
    rewrite El'. destruct l' as [|m' l'']; cbn [app head_group].
    + apply group_lookup_head with (gs := groups st). exact H3.
    + apply group_lookup_head with (gs := groups st).
      rewrite (Hm m') by (left; reflexivity). exact H3.
Qed.

Lemma name_group_here st :
  head_group (matches name_group st) (name_run (rest st)).
Proof.
  unfold name_group, name_run.
  pose proof (group_set_head 1 [SRange "a" "z"; SRange "0" "9"; SChar " "]
                1 None st) as H.
  fold is_name in H.
  destruct (matches _ st) as [|m l].
  - destruct (take_run is_name None (rest st)); simpl in *; [trivial|lia].
  - destruct H as (H1 & _ & H3).
    destruct (take_run is_name None (rest st)); [simpl in H1; lia|].
    simpl. now apply group_lookup_head with (gs := groups st).
Qed.

(** The separators and the name after the marker. *)
Lemma separators_name_head :
  forall fuel st,
    length (rest st) <= fuel ->
    head_group
      (flat_map (matches name_group)
         (repeat_loop
            (matches (InSet [SChar ":"; SCategory CategorySpace; SChar "-"]))
            fuel 0 None st))
      (capture_after (rest st)).
Proof.
  assert (Hstop : forall st o,
            head_group (matches name_group st) o ->
            head_group (flat_map (matches name_group) [st]) o).
  { intros st o H. cbn [flat_map]. now rewrite app_nil_r. }
  induction fuel as [|fuel IH]; intros [pv rs gs] Hf; cbn [rest] in *.
  - destruct rs; [|simpl in Hf; lia].
    cbn [repeat_loop Nat.eqb capture_after]. apply Hstop.
    apply (name_group_here (MState pv [] gs)).
  - cbn [repeat_loop Nat.eqb hi_is_zero]. rewrite matches_set. cbn [rest].
    destruct rs as [|x tl].
    + cbn [flat_map app capture_after]. apply Hstop.
      apply (name_group_here (MState pv [] gs)).
    + cbn [capture_after]. fold is_sep. destruct (is_sep x) eqn:Hx.
      * cbn [advance rest groups flat_map].
        change (Nat.pred 0) with 0. change (dec_hi None) with (@None nat).
        replace (length tl <? length (x :: tl)) with true
          by (symmetry; apply Nat.ltb_lt; simpl; lia).
        rewrite app_nil_r, flat_map_app.
        assert (Htl : length tl <= fuel) by (simpl in Hf; lia).
        specialize (IH (MState (Some x) tl gs) Htl). cbn [rest] in IH.
        destruct (capture_after tl) as [g|].
        -- now apply head_group_first.
        -- apply head_group_none in IH. rewrite IH. cbn [app].
           apply Hstop. apply (name_group_here (MState pv (x :: tl) gs)).
      * cbn [flat_map app]. apply Hstop.
        apply (name_group_here (MState pv (x :: tl) gs)).
Qed.

(** The school pattern at one position. *)
Lemma school_pattern_here st :
  head_group (matches school_pattern st) (capture_here (rest st)).
Proof.
  unfold school_pattern, capture_here. rewrite matches_lits.
  destruct (startswith (str "school") (rest st)); [|exact I].
  rewrite matches_seq. unfold separators at 1. rewrite matches_repeat.
  change (length (str "school")) with 6.
  rewrite <- (skip_rest 6 st).
  apply separators_name_head. apply le_n.
Qed.

(** [re.search] finds what the pattern finds at the first position
    where it finds something. *)
Lemma search_first_found r here :
  (forall st, head_group (matches r st) (here (rest st))) ->
  forall s before,
    found_group (search_from r before s) (first_found here s).
Proof.
  intros Hhere. induction s as [|c s IH]; intros before.
  - cbn [search_from first_found].
    specialize (Hhere (MState before [] [])). cbn [rest] in Hhere.
    destruct (matches r _), (here []); simpl in *; tauto.
  - cbn [search_from first_found].
    specialize (Hhere (MState before (c :: s) [])). cbn [rest] in Hhere.
    destruct (matches r _), (here (c :: s)); simpl in *; try tauto.
    apply IH.
Qed.

Lemma search_temp_pattern s :
  found_group (search temp_pattern s) (first_digit_group s).
Proof. apply search_first_found. exact temp_pattern_here. Qed.

Lemma search_school_pattern s :
  found_group (search school_pattern s) (school_capture s).
Proof. apply search_first_found. exact school_pattern_here. Qed.

End ReLemmas.

(* ================================================================== *)
(** ** What is found, against its description *)
(* ================================================================== *)

Section FoundLemmas.

Lemma is_digit_eq c : is_digit c = isdecimal c.
Proof. unfold is_digit, in_set. simpl. apply orb_false_r. Qed.

Lemma take_run_zero p s : take_run p (Some 0) s = [].
Proof. destruct s; reflexivity. Qed.

Lemma first_found_unfold here s :
  first_found here s
  = match here s with
    | Some g => Some g
    | None => match s with [] => None | _ :: s' => first_found here s' end
    end.
Proof. destruct s; reflexivity. Qed.

Lemma digit_group_here_inv s g :
  digit_group_here s = Some g ->
  exists post,
    s = g ++ post
    /\ Forall (fun c => isdecimal c = true) g
    /\ 1 <= length g <= 2
    /\ (length g = 2
        \/ match post with c :: _ => isdecimal c = false | [] => True end).
Proof.
  unfold digit_group_here.
  destruct s as [|c [|d tl]];
    cbn [take_run hi_is_zero dec_hi option_map Nat.pred];
    try discriminate; rewrite ?take_run_zero, !is_digit_eq.
  - destruct (isdecimal c) eqn:Hc; [|discriminate].
    intros [= <-]. exists []. repeat split; simpl; auto; try lia.
  - destruct (isdecimal c) eqn:Hc; [|discriminate].
    destruct (isdecimal d) eqn:Hd; intros [= <-].
    + exists tl. repeat split; simpl; auto; try lia.
    + exists (d :: tl). repeat split; simpl; auto; try lia.
Qed.

Lemma digit_group_here_none s :
  digit_group_here s = None ->
  match s with c :: _ => isdecimal c = false | [] => True end.
Proof.
  unfold digit_group_here. destruct s as [|c tl];
    cbn [take_run hi_is_zero dec_hi option_map Nat.pred]; [trivial|].
  rewrite is_digit_eq. destruct (isdecimal c); [discriminate | trivial].
Qed.

Lemma digit_group_here_nondigit c s :
  isdecimal c = false -> digit_group_here (c :: s) = None.
Proof.
  intros H. unfold digit_group_here.
  cbn [take_run hi_is_zero dec_hi option_map Nat.pred].
  now rewrite is_digit_eq, H.
Qed.

Lemma digit_group_here_intro g post :
  Forall (fun c => isdecimal c = true) g ->
  1 <= length g <= 2 ->
  (length g = 2
   \/ match post with c :: _ => isdecimal c = false | [] => True end) ->
  digit_group_here (g ++ post) = Some g.
Proof.
  intros Hg Hlen Hmax. unfold digit_group_here.
  destruct g as [|c [|d [|e g]]]; simpl in Hlen; try lia.
  - inversion_clear Hg as [|? ? Hc _].
    cbn [app take_run hi_is_zero dec_hi option_map Nat.pred].
    rewrite is_digit_eq, Hc.
    destruct Hmax as [Hmax|Hmax]; [discriminate|].
    destruct post as [|x post]; [reflexivity|].
    cbn [take_run hi_is_zero]. now rewrite is_digit_eq, Hmax.
  - inversion_clear Hg as [|? ? Hc Hg']. inversion_clear Hg' as [|? ? Hd _].
    cbn [app take_run hi_is_zero dec_hi option_map Nat.pred].
    rewrite take_run_zero, !is_digit_eq, Hc, Hd. reflexivity.
Qed.

Lemma first_digit_group_sound :
  forall t g, first_digit_group t = Some g -> FirstDigitGroup t g.
Proof.
  unfold first_digit_group.
  induction t as [|c t IH]; intros g H; rewrite first_found_unfold in H.
  - discriminate.
  - destruct (digit_group_here (c :: t)) as [g'|] eqn:E.
    + injection H as ->.
      destruct (digit_group_here_inv _ _ E) as (post & E1 & E2 & E3 & E4).
      exists [], post. repeat split; auto; lia.
    + apply digit_group_here_none in E.
      destruct (IH _ H) as (pre & post & -> & H1 & H2 & H3 & H4).
      exists (c :: pre), post. repeat split; auto; lia.
Qed.

Lemma first_digit_group_complete :
  forall t g, FirstDigitGroup t g -> first_digit_group t = Some g.
Proof.
  intros t g (pre & post & -> & Hpre & Hg & Hlen & Hmax).
  unfold first_digit_group.
  induction pre as [|c pre IH]; rewrite first_found_unfold.
  - cbn [app]. now rewrite digit_group_here_intro.
  - inversion_clear Hpre as [|? ? Hc Hpre'].
    cbn [app]. rewrite (digit_group_here_nondigit _ _ Hc). now apply IH.
Qed.

Lemma first_digit_group_none :
  forall t,
    first_digit_group t = None <-> Forall (fun c => isdecimal c = false) t.
Proof.
  unfold first_digit_group.
  induction t as [|c t IH]; rewrite first_found_unfold.
  - cbn. split; auto.
  - destruct (digit_group_here (c :: t)) eqn:E.
    + split; [discriminate|]. intros H. inversion_clear H as [|? ? Hc _].
      rewrite (digit_group_here_nondigit _ _ Hc) in E. discriminate.
    + apply digit_group_here_none in E. rewrite IH.
      split; [now constructor | now inversion 1].
Qed.

Lemma int_acc_digits :
  forall s acc,
    Forall (fun c => isdecimal c = true) s ->
    exists z, int_acc acc s = Some z.
Proof.
  induction s as [|c s IH]; intros acc H; simpl.
  - now exists acc.
  - inversion_clear H as [|? ? Hc Hs]. rewrite Hc. now apply IH.
Qed.

Lemma int_digit_group t g :
  FirstDigitGroup t g -> exists temp, int g = Some temp.
Proof.
  intros (pre & post & _ & _ & Hg & Hlen & _).
  destruct g as [|c g]; [simpl in Hlen; lia|].
  unfold int. now apply int_acc_digits.
Qed.

Lemma name_run_inv s g :
  name_run s = Some g ->
  exists post,
    s = g ++ post /\ g <> [] /\ Forall (fun c => is_name c = true) g.
Proof.
  unfold name_run. intros H.
  pose proof (take_drop_run is_name s None) as Hs.
  pose proof (take_run_Forall is_name s None) as Hall.
  destruct (take_run is_name None s) as [|c r]; [discriminate|].
  injection H as <-. exists (drop_run is_name None s).
  repeat split; [exact Hs | discriminate | exact Hall].
Qed.

Lemma name_run_intro c s :
  is_name c = true -> exists g, name_run (c :: s) = Some g.
Proof.
  intros Hc. unfold name_run. cbn [take_run hi_is_zero]. rewrite Hc.
  eexists. reflexivity.
Qed.

Lemma capture_after_sound :
  forall s g,
    capture_after s = Some g ->
    exists seps post,
      s = seps ++ g ++ post
      /\ Forall (fun c => is_sep c = true) seps
      /\ g <> []
      /\ Forall (fun c => is_name c = true) g.
Proof.
  assert (Hname : forall s g, name_run s = Some g ->
            exists seps post,
              s = seps ++ g ++ post
              /\ Forall (fun c => is_sep c = true) seps
              /\ g <> []
              /\ Forall (fun c => is_name c = true) g).
  { intros s g H. destruct (name_run_inv _ _ H) as (post & E1 & E2 & E3).
    exists [], post. repeat split; auto. }
  induction s as [|c s IH]; intros g H; cbn [capture_after] in H.
  - discriminate.
  - destruct (is_sep c) eqn:Hc; [|now apply Hname].
    destruct (capture_after s) as [g'|]; [|now apply Hname].
    injection H as ->.
    destruct (IH _ eq_refl) as (seps & post & -> & H1 & H2 & H3).
    exists (c :: seps), post. repeat split; auto.
Qed.

Lemma capture_after_complete :
  forall seps g post,
    Forall (fun c => is_sep c = true) seps ->
    g <> [] ->
    Forall (fun c => is_name c = true) g ->
    exists g', capture_after (seps ++ g ++ post) = Some g'.
Proof.
  intros seps g post Hseps Hne Hg.
  destruct g as [|c g]; [congruence|]. inversion_clear Hg as [|? ? Hc _].
  induction seps as [|x seps IH]; cbn [app capture_after].
  - destruct (name_run_intro _ (g ++ post) Hc) as [g' E].
    cbn [app] in E. rewrite E.
    destruct (is_sep c); [|now exists g'].
    destruct (capture_after (g ++ post)) as [g''|]; eauto.
  - inversion_clear Hseps as [|? ? Hx Hseps']. rewrite Hx.
    destruct (IH Hseps') as [g' E]. cbn [app] in E. rewrite E. eauto.
Qed.

Lemma capture_here_inv t g :
  capture_here t = Some g ->
  exists seps post,
    t = str "school" ++ seps ++ g ++ post
    /\ Forall (fun c => is_sep c = true) seps
    /\ g <> []
    /\ Forall (fun c => is_name c = true) g.
Proof.
  unfold capture_here. intros H.
  destruct (startswith (str "school") t) eqn:E; [|discriminate].
  destruct (startswith_inv _ _ E) as [s ->].
  change (skipn 6 (str "school" ++ s)) with s in H.
  destruct (capture_after_sound _ _ H) as (seps & post & -> & H1 & H2 & H3).
  exists seps, post. auto.
Qed.

Lemma school_capture_sound :
  forall t g, school_capture t = Some g -> SchoolMatch t g.
Proof.
  unfold school_capture.
  induction t as [|c t IH]; intros g H; rewrite first_found_unfold in H.
  - discriminate.
  - destruct (capture_here (c :: t)) as [g'|] eqn:E.
    + injection H as ->.
      destruct (capture_here_inv _ _ E) as (seps & post & E1 & H1 & H2 & H3).
      exists [], seps, post. auto.
    + destruct (IH _ H) as (pre & seps & post & -> & H1 & H2 & H3).
      exists (c :: pre), seps, post. auto.
Qed.

Lemma school_capture_complete :
  forall t g, SchoolMatch t g -> exists g', school_capture t = Some g'.
Proof.
  intros t g (pre & seps & post & -> & Hseps & Hne & Hg).
  unfold school_capture.
  induction pre as [|c pre IH]; rewrite first_found_unfold.
  - cbn [app]. unfold capture_here. rewrite startswith_app.
    change (skipn 6 (str "school" ++ seps ++ g ++ post))
      with (seps ++ g ++ post).
    destruct (capture_after_complete _ _ post Hseps Hne Hg) as [g' ->]. eauto.
  - destruct (capture_here _) as [g'|]; [eauto|]. exact IH.
Qed.

End FoundLemmas.

Section FirstCapture.

Lemma drop_run_head p :
  forall s,
    match drop_run p None s with
    | c :: _ => p c = false
    | [] => True
    end.
Proof.
  induction s as [|c s IH]; cbn [drop_run hi_is_zero]; [exact I|].
  destruct (p c) eqn:E; [exact IH | exact E].
Qed.

Lemma app_eq_length (A : Type) :
  forall (l1 l2 r1 r2 : list A),
    l1 ++ r1 = l2 ++ r2 -> length l1 = length l2 -> l1 = l2 /\ r1 = r2.
Proof.
  induction l1 as [|a l1 IH]; intros [|b l2] r1 r2 E L;
    simpl in *; try discriminate; [auto|].
  injection E as -> E. destruct (IH l2 r1 r2 E) as [-> ->]; auto.
Qed.

(** The longest run of a class at the head of a text is one run. *)
Lemma longest_run_unique (p : ascii -> bool) :
  forall g g' post post',
    g ++ post = g' ++ post' ->
    Forall (fun c => p c = true) g ->
    Forall (fun c => p c = true) g' ->
    match post with c :: _ => p c = false | [] => True end ->
    match post' with c :: _ => p c = false | [] => True end ->
    g = g'.
Proof.
  induction g as [|a g IH]; intros [|b g'] post post' E Hg Hg' Hp Hp';
    cbn [app] in E.
  - reflexivity.
  - subst post. inversion_clear Hg' as [|? ? Hb _]. congruence.
  - subst post'. inversion_clear Hg as [|? ? Ha _]. congruence.
  - injection E as -> E. f_equal.
    inversion_clear Hg. inversion_clear Hg'. eapply IH; eauto.
Qed.

Lemma capture_after_first :
  forall s g,
    capture_after s = Some g ->
    exists seps post,
      s = seps ++ g ++ post
      /\ Forall (fun c => is_sep c = true) seps
      /\ g <> []
      /\ Forall (fun c => is_name c = true) g
      /\ match post with c :: _ => is_name c = false | [] => True end
      /\ (forall seps' g' post',
             s = seps' ++ g' ++ post' ->
             Forall (fun c => is_sep c = true) seps' ->
             g' <> [] ->
             Forall (fun c => is_name c = true) g' ->
             length seps' <= length seps).
Proof.
  assert (Hname : forall s g,
            name_run s = Some g ->
            exists post,
              s = g ++ post /\ g <> []
              /\ Forall (fun c => is_name c = true) g
              /\ match post with c :: _ => is_name c = false | [] => True end).
  { intros s g H. unfold name_run in H.
    pose proof (take_drop_run is_name s None) as Hs.
    pose proof (take_run_Forall is_name s None) as Hall.
    pose proof (drop_run_head is_name s) as Hhead.
    destruct (take_run is_name None s) as [|c r]; [discriminate|].
    injection H as <-. exists (drop_run is_name None s).
    repeat split; [exact Hs | discriminate | exact Hall | exact Hhead]. }
  induction s as [|c s IH]; intros g H; cbn [capture_after] in H.
  - discriminate.
  - destruct (is_sep c) eqn:Hc.
    + destruct (capture_after s) as [g0|] eqn:E.
      * injection H as ->.
        destruct (IH _ eq_refl)
          as (seps & post & -> & H1 & H2 & H3 & H4 & H5).
        exists (c :: seps), post. repeat split; auto.
        intros [|x seps'] g' post' E' S' N' G'; cbn [length]; [lia|].
        cbn [app] in E'. injection E' as <- E'.
        inversion_clear S'. apply le_n_S. eapply H5; eauto.
      * destruct (Hname _ _ H) as (post & Es & H2 & H3 & H4).
        exists [], post. repeat split; auto.
        intros [|x seps'] g' post' E' S' N' G'; cbn [length]; [lia|].
        exfalso. cbn [app] in E'. injection E' as <- E'.
        inversion_clear S' as [|? ? _ S''].
        destruct (capture_after_complete _ _ post' S'' N' G') as [g'' Eg].
        rewrite <- E' in Eg. congruence.
    + destruct (Hname _ _ H) as (post & Es & H2 & H3 & H4).
      exists [], post. repeat split; auto.
      intros [|x seps'] g' post' E' S' N' G'; cbn [length]; [lia|].
      exfalso. cbn [app] in E'. injection E' as <- E'.
      inversion_clear S'. congruence.
Qed.

Lemma capture_here_complete seps g post :
  Forall (fun c => is_sep c = true) seps ->
  g <> [] ->
  Forall (fun c => is_name c = true) g ->
  exists g', capture_here (str "school" ++ seps ++ g ++ post) = Some g'.
Proof.
  intros Hs Hn Hg. unfold capture_here. rewrite startswith_app.
  change (skipn 6 (str "school" ++ seps ++ g ++ post))
    with (seps ++ g ++ post).
  now apply capture_after_complete.
Qed.

Lemma school_capture_first :
  forall t g, school_capture t = Some g -> FirstSchoolCapture t g.
Proof.
  unfold school_capture.
  induction t as [|c t IH]; intros g H; rewrite first_found_unfold in H.
  - discriminate.
  - destruct (capture_here (c :: t)) as [g'|] eqn:E.
    + injection H as ->. unfold capture_here in E.
      destruct (startswith (str "school") (c :: t)) eqn:Es; [|discriminate].
      destruct (startswith_inv _ _ Es) as [s Et]. rewrite Et in E |- *.
      change (skipn 6 (str "school" ++ s)) with s in E.
      destruct (capture_after_first _ _ E)
        as (seps & post & -> & H1 & H2 & H3 & H4 & H5).
      exists [], seps, post. repeat split; auto.
      intros; cbn [length]; lia.
    + destruct (IH _ H)
        as (pre & seps & post & -> & H1 & H2 & H3 & H4 & H5 & H6).
      exists (c :: pre), seps, post. repeat split; auto.
      intros [|x pre'] seps' g' post' E' S' N' G'.
      * exfalso. cbn [app] in E'.
        destruct (capture_here_complete _ _ post' S' N' G') as [g'' Eg].
        rewrite <- E' in Eg. congruence.
      * cbn [app] in E'. injection E' as <- E'.
        cbn [length]. apply le_n_S. exact (H5 _ _ _ _ E' S' N' G').
Qed.

Lemma first_school_capture_unique t g g' :
  FirstSchoolCapture t g -> FirstSchoolCapture t g' -> g = g'.
Proof.
  intros (pre & seps & post & Et & S & N & G & P & L & M)
         (pre' & seps' & post' & Et' & S' & N' & G' & P' & L' & M').
  assert (Lpre : length pre = length pre').
  { apply Nat.le_antisymm; [eapply L | eapply L']; eauto. }
  rewrite Et in Et'.
  destruct (app_eq_length _ _ _ _ _ Et' Lpre) as [_ E1].
  apply app_inv_head in E1.
  assert (Lseps : length seps = length seps').
  { apply Nat.le_antisymm; [eapply M' | eapply M]; eauto. }
  destruct (app_eq_length _ _ _ _ _ E1 Lseps) as [_ E2].
  eapply longest_run_unique; eauto.
Qed.

Lemma first_school_capture_spec t g :
  school_capture t = Some g <-> FirstSchoolCapture t g.
Proof.
  split; [apply school_capture_first|].
  intros H.
  assert (Hm : SchoolMatch t g).
  { destruct H as (pre & seps & post & Et & S & N & G & _).
    exists pre, seps, post. auto. }
  destruct (school_capture_complete _ _ Hm) as [g' E].
  rewrite E. f_equal.
  eapply first_school_capture_unique; [|exact H].
  now apply school_capture_first.
Qed.

End FirstCapture.

(* ================================================================== *)
(** ** The guardrails, case by case *)
(* ================================================================== *)

Section GuardrailLemmas.

Lemma contains_lstrip a n :
  isspace a = false ->
  forall s, contains (a :: n) (lstrip s) = contains (a :: n) s.
Proof.
  intros Ha. induction s as [|c s IH]; [reflexivity|].
  cbn [lstrip]. destruct (isspace c) eqn:Hc; [|reflexivity].
  rewrite IH. rewrite (contains_unfold (a :: n) (c :: s)).
  cbn [startswith].
  destruct (Ascii.eqb a c) eqn:E; [|reflexivity].
  apply Ascii.eqb_eq in E. congruence.
Qed.

Lemma substring_rev n h : Substring n h -> Substring (rev n) (rev h).
Proof.
  intros (pre & post & ->). exists (rev post), (rev pre).
  now rewrite !rev_app_distr, app_assoc.
Qed.

Lemma contains_rev n h : contains (rev n) (rev h) = contains n h.
Proof.
  apply eq_true_iff_eq. rewrite !contains_spec. split.
  - intros H. apply substring_rev in H. now rewrite !rev_involutive in H.
  - apply substring_rev.
Qed.

(** Stripping the blanks neither hides nor makes a ["my school"]. *)
Lemma contains_strip_my_school g :
  contains (str "my school") (strip g) = contains (str "my school") g.
Proof.
  unfold strip, rstrip.
  rewrite <- (contains_rev (str "my school")), rev_involutive.
  change (rev (str "my school")) with ("l"%char :: str "oohcs ym").
  rewrite contains_lstrip by reflexivity.
  change ("l"%char :: str "oohcs ym") with (rev (str "my school")).
  rewrite contains_rev.
  change (str "my school") with ("m"%char :: str "y school").
  now rewrite contains_lstrip.
Qed.

Lemma father_temp_cases input :
  match first_digit_group (normalized input) with
  | Some g =>
      exists temp,
        int g = Some temp
        /\ father_temp_guardrail input
           = Some (mkOutput (info_temp (VInt temp) (unified input))
                            (temp <? 26)%Z)
  | None =>
      father_temp_guardrail input
      = Some (mkOutput (info_temp VNone (unified input)) false)
  end.
Proof.
  unfold father_temp_guardrail, normalized.
  pose proof (search_temp_pattern (lower (unified input))) as H.
  destruct (first_digit_group (lower (unified input))) as [g|] eqn:E.
  - destruct (search temp_pattern (lower (unified input))) as [m|];
      [|destruct H].
    cbn [found_group] in H. rewrite H.
    destruct (int_digit_group _ _ (first_digit_group_sound _ _ E)) as [temp Ht].
    exists temp. split; [exact Ht|]. rewrite Ht.
    destruct (temp <? 26)%Z; reflexivity.
  - destruct (search temp_pattern (lower (unified input))) as [m|];
      [destruct H | reflexivity].
Qed.

Lemma gatekeeper_cases input :
  let u := unified input in
  let t := normalized input in
  gatekeeper_guardrail input
  = if contains (str "from my school") t
       || contains (str "my school student") t
    then Some (mkOutput (info_allowed u) false)
    else match first_trigger triggers t with
         | Some _ => Some (mkOutput (info_reason u) true)
         | None =>
             match school_capture t with
             | Some g =>
                 if contains (str "my school") g
                 then Some (mkOutput (info_allowed u) false)
                 else Some (mkOutput (info_school (strip g) u) true)
             | None => Some (mkOutput (info_allowed u) false)
             end
         end.
Proof.
  intros u t. unfold gatekeeper_guardrail. fold u.
  change (lower u) with t.
  destruct (contains (str "from my school") t
            || contains (str "my school student") t); [reflexivity|].
  destruct (first_trigger triggers t); [reflexivity|].
  pose proof (search_school_pattern t) as H.
  destruct (school_capture t) as [g|], (search school_pattern t) as [m|];
    cbn [found_group] in H; try contradiction; [|reflexivity].
  rewrite H. cbv zeta. rewrite contains_strip_my_school.
  destruct (contains (str "my school") g); reflexivity.
Qed.

Lemma allow_phrase_spec t :
  contains (str "from my school") t || contains (str "my school student") t
  = true <-> allow_phrase t.
Proof.
  unfold allow_phrase. now rewrite orb_true_iff, !contains_spec.
Qed.

Lemma first_trigger_inv t :
  forall ts d,
    first_trigger ts t = Some d ->
    exists before after,
      ts = before ++ d :: after
      /\ Substring d t
      /\ Forall (fun u => ~ Substring u t) before.
Proof.
  induction ts as [|x ts IH]; intros d H; cbn [first_trigger] in H.
  - discriminate.
  - destruct (contains x t) eqn:E.
    + injection H as ->. exists [], ts.
      repeat split; [now apply contains_spec | constructor].
    + destruct (IH _ H) as (before & after & -> & H1 & H2).
      exists (x :: before), after.
      repeat split; [exact H1|]. constructor; [|exact H2].
      now apply contains_false.
Qed.

Lemma first_trigger_none t :
  forall ts,
    first_trigger ts t = None <-> (forall d, In d ts -> ~ Substring d t).
Proof.
  induction ts as [|x ts IH]; cbn [first_trigger].
  - split; [intros _ d [] | reflexivity].
  - destruct (contains x t) eqn:E.
    + split; [discriminate|]. intros H.
      apply contains_spec in E. elim (H x (or_introl eq_refl) E).
    + rewrite IH. apply contains_false in E. split.
      * intros H d [<-|Hd]; [exact E | now apply H].
      * intros H d Hd. apply H. now right.
Qed.

Lemma deny_phrase_spec t :
  first_trigger triggers t = None <-> ~ deny_phrase t.
Proof.
  rewrite first_trigger_none. unfold deny_phrase. split.
  - intros H (d & Hd & Hs). exact (H d Hd Hs).
  - intros H d Hd Hs. apply H. now exists d.
Qed.

Lemma first_digit_group_exists t :
  (exists c, In c t /\ isdecimal c = true) -> exists g, FirstDigitGroup t g.
Proof.
  intros (c & Hin & Hc).
  destruct (first_digit_group t) as [g|] eqn:E.
  - exists g. now apply first_digit_group_sound.
  - apply first_digit_group_none in E.
    rewrite Forall_forall in E. specialize (E c Hin). congruence.
Qed.

(** The diagnostics of each guardrail hold [unified] under "text": the
    input as one string, before it is lowercased. *)
Lemma father_temp_text input :
  exists v,
    father_temp_guardrail input = Some v
    /\ dict_get "text" (output_info v) = Some (VStr (unified input)).
Proof.
  pose proof (father_temp_cases input) as H.
  destruct (first_digit_group (normalized input)).
  - destruct H as (temp & _ & ->). eexists. split; reflexivity.
  - rewrite H. eexists. split; reflexivity.
Qed.

Lemma gatekeeper_text input :
  exists v,
    gatekeeper_guardrail input = Some v
    /\ dict_get "text" (output_info v) = Some (VStr (unified input)).
Proof.
  rewrite gatekeeper_cases. cbv zeta.
  destruct (_ || _); [eexists; split; reflexivity|].
  destruct (first_trigger _ _); [eexists; split; reflexivity|].
  destruct (school_capture _) as [g|]; [|eexists; split; reflexivity].
  destruct (contains _ g); eexists; split; reflexivity.
Qed.

Lemma join_cons2 sep p q ps :
  join sep (p :: q :: ps) = p ++ sep ++ join sep (q :: ps).
Proof. reflexivity. Qed.

Lemma join_spaced :
  forall parts, join (str " ") parts = spaced parts.
Proof.
  induction parts as [|p [|q ps] IH].
  - reflexivity.
  - cbn. now rewrite app_nil_r.
  - rewrite join_cons2, IH. reflexivity.
Qed.

Lemma element_text_getattr i :
  py_str (getattr i "content" i) = element_text i.
Proof.
  destruct i as [s|attrs r]; cbn; [reflexivity|].
  destruct (lookup_attr "content" attrs); reflexivity.
Qed.

Lemma gatekeeper_parse_cases input :
  ~ allow_phrase (normalized input) ->
  ~ deny_phrase (normalized input) ->
  gatekeeper_guardrail input
  = match school_capture (normalized input) with
    | Some g =>
        if contains (str "my school") g
        then Some (mkOutput (info_allowed (unified input)) false)
        else Some (mkOutput (info_school (strip g) (unified input)) true)
    | None => Some (mkOutput (info_allowed (unified input)) false)
    end.
Proof.
  intros Ha Hd. rewrite gatekeeper_cases. cbv zeta.
  destruct (contains (str "from my school") (normalized input)
            || contains (str "my school student") (normalized input)) eqn:E.
  - apply allow_phrase_spec in E. contradiction.
  - apply deny_phrase_spec in Hd. now rewrite Hd.
Qed.

End GuardrailLemmas.

(* ================================================================== *)
(** ** The properties of the three predicates *)
(* ================================================================== *)

(** On a given text the phrase tests are settled by running them. *)
Ltac no_allow_phrase :=
  let H := fresh in
  intros H; apply allow_phrase_spec in H; vm_compute in H; discriminate.

Ltac no_deny_phrase := apply deny_phrase_spec; vm_compute; reflexivity.

Ltac has_phrase := apply contains_spec; vm_compute; reflexivity.

(** C3: the class-timing guardrail trips exactly when the lowercased
    text contains "change my class timing" or "change my class timings"
    as a plain substring; when it trips the diagnostics hold the reason
    "user asked to change class timings", and when it does not they hold
    [ok = True]. *)
Theorem class_timing_iff_phrase :
  forall input,
    let v := class_timing_guardrail input in
    (tripwire_triggered v = true
     <-> Substring (str "change my class timing") (normalized input)
         \/ Substring (str "change my class timings") (normalized input))
    /\ (tripwire_triggered v = true ->
        dict_get "reason" (output_info v)
        = Some (VStr (str "user asked to change class timings")))
    /\ (tripwire_triggered v = false ->
        dict_get "ok" (output_info v) = Some (VBool true)).
Proof.
  intros input v. subst v. unfold class_timing_guardrail, normalized.
  rewrite <- !contains_spec, <- orb_true_iff.
  destruct (contains (str "change my class timing") (lower (unified input))
            || contains (str "change my class timings")
                 (lower (unified input)));
    cbn; repeat split; auto; discriminate.
Qed.

Lemma class_timing_iff_phrase_witness :
  let input := InputOther (PyStr (str "I want to Change My Class timings")) in
  tripwire_triggered (class_timing_guardrail input) = true
  /\ dict_get "reason" (output_info (class_timing_guardrail input))
     = Some (VStr (str "user asked to change class timings")).
Proof.
  intros input.
  assert (H : tripwire_triggered (class_timing_guardrail input) = true)
    by (vm_compute; reflexivity).
  split; [exact H|].
  exact (proj1 (proj2 (class_timing_iff_phrase input)) H).
Defined.

(** C2: when the lowercased text contains "from my school" or
    "my school student" the gatekeeper does not trip and answers
    [allowed = True], whatever deny-phrases the text also holds; so it is
    for "other school but I am a my school student". *)
Theorem gatekeeper_allow_precedence :
  (forall input,
      allow_phrase (normalized input) ->
      gatekeeper_guardrail input
      = Some (mkOutput (info_allowed (unified input)) false))
  /\ gatekeeper_guardrail
       (InputOther (PyStr (str "other school but I am a my school student")))
     = Some (mkOutput
               (info_allowed (str "other school but I am a my school student"))
               false).
Proof.
  split; [|vm_compute; reflexivity].
  intros input H. rewrite gatekeeper_cases. cbv zeta.
  apply allow_phrase_spec in H. now rewrite H.
Qed.

Lemma gatekeeper_allow_precedence_witness :
  let input :=
    InputList [PyStr (str "Student from Other School,");
               PyStr (str "not from my school")] in
  deny_phrase (normalized input)
  /\ allow_phrase (normalized input)
  /\ gatekeeper_guardrail input
     = Some (mkOutput (info_allowed (unified input)) false).
Proof.
  intros input.
  assert (Ha : allow_phrase (normalized input)).
  { left. has_phrase. }
  split; [|split; [exact Ha|]].
  - exists (str "other school"). split; [left; reflexivity | has_phrase].
  - exact (proj1 gatekeeper_allow_precedence input Ha).
Defined.

(** C4: when the lowercased text holds neither allow-phrase and holds one
    of the five deny-phrases, the gatekeeper trips with the reason
    "other school detected"; the loop returns at the first phrase of the
    list, in its order, that the text contains. *)
Theorem gatekeeper_deny_phrase :
  forall input,
    ~ allow_phrase (normalized input) ->
    deny_phrase (normalized input) ->
    gatekeeper_guardrail input
    = Some (mkOutput (info_reason (unified input)) true)
    /\ exists before d after,
        triggers = before ++ d :: after
        /\ first_trigger triggers (normalized input) = Some d
        /\ Substring d (normalized input)
        /\ Forall (fun u => ~ Substring u (normalized input)) before.
Proof.
  intros input Hallow Hdeny. rewrite gatekeeper_cases. cbv zeta.
  destruct (contains (str "from my school") (normalized input)
            || contains (str "my school student") (normalized input)) eqn:E.
  - apply allow_phrase_spec in E. contradiction.
  - destruct (first_trigger triggers (normalized input)) as [d|] eqn:Ed.
    + split; [reflexivity|].
      destruct (first_trigger_inv _ _ _ Ed) as (before & after & H1 & H2 & H3).
      exists before, d, after. auto.
    + apply deny_phrase_spec in Ed. contradiction.
Qed.

Lemma gatekeeper_deny_phrase_witness :
  let input :=
    InputOther (PyStr (str "Student from Other School wants to enter")) in
  gatekeeper_guardrail input
  = Some (mkOutput (info_reason (unified input)) true).
Proof.
  intros input.
  refine (proj1 (gatekeeper_deny_phrase input _ _)).
  - no_allow_phrase.
  - exists (str "other school"). split; [left; reflexivity | has_phrase].
Defined.

(** C6, as stated, fails: for the input "Run at 24 C near School 9" the
    three guardrails store the text with its capitals, which is not the
    lowercased text. *)
Lemma text_diagnostic_is_not_lowercased :
  let input := InputOther (PyStr (str "Run at 24 C near School 9")) in
  dict_get "text" (output_info (class_timing_guardrail input))
  <> Some (VStr (normalized input))
  /\ (exists v, father_temp_guardrail input = Some v
                /\ dict_get "text" (output_info v)
                   <> Some (VStr (normalized input)))
  /\ (exists v, gatekeeper_guardrail input = Some v
                /\ dict_get "text" (output_info v)
                   <> Some (VStr (normalized input))).
Proof.
  intros input. split; [|split].
  - vm_compute. discriminate.
  - eexists. split; [vm_compute; reflexivity|]. vm_compute. discriminate.
  - eexists. split; [vm_compute; reflexivity|]. vm_compute. discriminate.
Qed.

(** C6, amended: for every input, each of the three guardrails returns a
    verdict whose diagnostics hold under "text" the flattened input as it
    is before lowercasing; that is the lowercased text exactly when
    lowercasing leaves the flattened input as it is. *)
Theorem text_diagnostic_is_unified :
  forall input,
    dict_get "text" (output_info (class_timing_guardrail input))
    = Some (VStr (unified input))
    /\ (exists v, father_temp_guardrail input = Some v
                  /\ dict_get "text" (output_info v)
                     = Some (VStr (unified input)))
    /\ (exists v, gatekeeper_guardrail input = Some v
                  /\ dict_get "text" (output_info v)
                     = Some (VStr (unified input)))
    /\ (Some (VStr (unified input)) = Some (VStr (normalized input))
        <-> lower (unified input) = unified input).
Proof.
  intros input. split; [|split; [|split]].
  - unfold class_timing_guardrail. destruct (_ || _); reflexivity.
  - apply father_temp_text.
  - apply gatekeeper_text.
  - unfold normalized. split; [intros [= E]; now symmetry | now intros ->].
Qed.

(** C8: for a list, normalization takes of each element its [content]
    when it has one and else its string form, joins these in order with
    one space between two neighbours, and lowercases; for any other input
    it is the lowercased string form of the input. *)
Theorem normalized_refines_spec :
  (forall input, normalized input = spec_normalize input)
  /\ normalized (InputList []) = []
  /\ (forall a, normalized (InputList [a]) = lower (element_text a))
  /\ (forall a b items,
         normalized (InputList (a :: b :: items))
         = lower (element_text a)
             ++ " "%char :: normalized (InputList (b :: items)))
  /\ (forall v, normalized (InputOther v) = lower (py_str v)).
Proof.
  assert (Hmap : forall items,
             map (fun i => py_str (getattr i "content" i)) items
             = map element_text items).
  { intros items. apply map_ext. exact element_text_getattr. }
  repeat split.
  - intros [items|v]; unfold normalized, spec_normalize; cbn [unified];
      [|reflexivity].
    now rewrite join_spaced, Hmap.
  - intros a. unfold normalized. cbn [unified map join].
    now rewrite element_text_getattr.
  - intros a b items. unfold normalized. cbn [unified map].
    rewrite join_cons2. unfold lower. rewrite !map_app.
    now rewrite element_text_getattr.
Qed.

(** C10: the empty list and the empty string normalize to the empty
    string, and on both none of the three guardrails trips: the
    class-timing one answers [ok = True], the temperature one
    [detected_temp = None] and the gatekeeper [allowed = True]. *)
Theorem empty_input_verdicts :
  forall input,
    In input [InputList []; InputOther (PyStr [])] ->
    normalized input = []
    /\ class_timing_guardrail input
       = mkOutput [("ok"%string, VBool true); ("text"%string, VStr [])] false
    /\ father_temp_guardrail input
       = Some (mkOutput (info_temp VNone []) false)
    /\ gatekeeper_guardrail input
       = Some (mkOutput (info_allowed []) false).
Proof.
  intros input [<-|[<-|[]]]; repeat split.
Qed.

Lemma empty_input_verdicts_witness :
  normalized (InputList []) = []
  /\ tripwire_triggered (class_timing_guardrail (InputList [])) = false.
Proof.
  destruct (empty_input_verdicts (InputList []) (or_introl eq_refl))
    as (H1 & H2 & _).
  split; [exact H1 | now rewrite H2].
Defined.

(** C1: the temperature guardrail always returns a verdict; it trips
    exactly when the lowercased text has a group of one or two digits and
    the first one reads as an integer below 26; with no digit in the text
    it does not trip and [detected_temp] is [None]; 26 itself does not
    trip; and what follows the first group has no part in the verdict. *)
Theorem father_temp_first_digit_group :
  (forall input,
      let t := normalized input in
      let u := unified input in
      exists v,
        father_temp_guardrail input = Some v
        /\ (tripwire_triggered v = true
            <-> exists g temp,
                FirstDigitGroup t g /\ int g = Some temp /\ (temp < 26)%Z)
        /\ (forall g,
               FirstDigitGroup t g ->
               exists temp,
                 int g = Some temp
                 /\ v = mkOutput (info_temp (VInt temp) u) (temp <? 26)%Z)
        /\ ((forall c, In c t -> isdecimal c = false) ->
            v = mkOutput (info_temp VNone u) false)
        /\ ((exists c, In c t /\ isdecimal c = true) ->
            exists g, FirstDigitGroup t g))
  /\ father_temp_guardrail (InputOther (PyStr (str "It is 26 degrees")))
     = Some (mkOutput (info_temp (VInt 26) (str "It is 26 degrees")) false)
  /\ (forall input1 input2 g,
         FirstDigitGroup (normalized input1) g ->
         FirstDigitGroup (normalized input2) g ->
         option_map tripwire_triggered (father_temp_guardrail input1)
         = option_map tripwire_triggered (father_temp_guardrail input2)).
Proof.
  split; [|split; [vm_compute; reflexivity|]].
  - intros input t u. subst t u.
    pose proof (father_temp_cases input) as H.
    destruct (first_digit_group (normalized input)) as [g|] eqn:E.
    + destruct H as (temp & Ht & Hv).
      exists (mkOutput (info_temp (VInt temp) (unified input)) (temp <? 26)%Z).
      split; [exact Hv|]. cbn [tripwire_triggered].
      pose proof (first_digit_group_sound _ _ E) as Hg.
      repeat split.
      * intros Hlt. exists g, temp. apply Z.ltb_lt in Hlt. auto.
      * intros (g' & temp' & Hg' & Ht' & Hlt).
        apply first_digit_group_complete in Hg'.
        assert (g' = g) by congruence. subst g'.
        assert (temp' = temp) by congruence. subst temp'.
        now apply Z.ltb_lt.
      * intros g' Hg'. apply first_digit_group_complete in Hg'.
        assert (g' = g) by congruence. subst g'. now exists temp.
      * intros Hno. exfalso.
        assert (Hnone : first_digit_group (normalized input) = None)
          by (apply first_digit_group_none, Forall_forall; exact Hno).
        congruence.
      * intros _. now exists g.
    + exists (mkOutput (info_temp VNone (unified input)) false).
      split; [exact H|]. cbn [tripwire_triggered].
      repeat split.
      * discriminate.
      * intros (g & temp & Hg & _). apply first_digit_group_complete in Hg.
        congruence.
      * intros g Hg. apply first_digit_group_complete in Hg. congruence.
      * apply first_digit_group_exists.
  - intros input1 input2 g H1 H2.
    apply first_digit_group_complete in H1, H2.
    pose proof (father_temp_cases input1) as C1.
    pose proof (father_temp_cases input2) as C2.
    rewrite H1 in C1. rewrite H2 in C2.
    destruct C1 as (t1 & E1 & ->), C2 as (t2 & E2 & ->).
    cbn. congruence.
Qed.

Lemma father_temp_first_digit_group_witness :
  let input :=
    InputOther (PyStr (str "Child: I want to run at 24 C, not 30")) in
  FirstDigitGroup (normalized input) (str "24")
  /\ father_temp_guardrail input
     = Some (mkOutput (info_temp (VInt 24) (unified input)) true).
Proof.
  intros input.
  assert (Hg : FirstDigitGroup (normalized input) (str "24")).
  { apply first_digit_group_sound. vm_compute. reflexivity. }
  split; [exact Hg|].
  destruct (proj1 father_temp_first_digit_group input)
    as (v & Hv & _ & Hval & _).
  destruct (Hval _ Hg) as (temp & Ht & ->).
  rewrite Hv. vm_compute in Ht. injection Ht as <-. reflexivity.
Defined.

(** C7: when the first run of digits of the lowercased text has three
    digits or more, the pattern takes its first two digits only: they are
    [detected_temp], and the verdict follows them; for "100" the
    guardrail reads 10 and trips. *)
Theorem father_temp_three_digits :
  (forall input pre d1 d2 d3 post,
      normalized input = pre ++ d1 :: d2 :: d3 :: post ->
      Forall (fun c => isdecimal c = false) pre ->
      isdecimal d1 = true -> isdecimal d2 = true -> isdecimal d3 = true ->
      let temp := (10 * digit_value d1 + digit_value d2)%Z in
      found_group (search temp_pattern (normalized input)) (Some [d1; d2])
      /\ father_temp_guardrail input
         = Some (mkOutput (info_temp (VInt temp) (unified input))
                          (temp <? 26)%Z))
  /\ father_temp_guardrail (InputOther (PyStr (str "100")))
     = Some (mkOutput (info_temp (VInt 10) (str "100")) true).
Proof.
  split; [|vm_compute; reflexivity].
  intros input pre d1 d2 d3 post Et Hpre H1 H2 H3 temp.
  assert (Hg : FirstDigitGroup (normalized input) [d1; d2]).
  { exists pre, (d3 :: post). rewrite Et.
    repeat split; simpl; auto. }
  apply first_digit_group_complete in Hg.
  split.
  - pose proof (search_temp_pattern (normalized input)) as Hs.
    rewrite Hg in Hs. exact Hs.
  - pose proof (father_temp_cases input) as C. rewrite Hg in C.
    destruct C as (temp' & Ht & ->).
    unfold int in Ht. cbn [int_acc] in Ht. rewrite H1, H2 in Ht.
    injection Ht as <-. subst temp.
    replace (10 * (10 * 0 + digit_value d1) + digit_value d2)%Z
      with (10 * digit_value d1 + digit_value d2)%Z by lia.
    reflexivity.
Qed.

Lemma father_temp_three_digits_witness :
  let input := InputOther (PyStr (str "It is 100 degrees")) in
  father_temp_guardrail input
  = Some (mkOutput (info_temp (VInt 10) (unified input)) true).
Proof.
  intros input.
  refine (proj2 (proj1 father_temp_three_digits input (str "it is ")
                   "1"%char "0"%char "0"%char (str " degrees") _ _ _ _ _)).
  - reflexivity.
  - repeat constructor.
  - reflexivity.
  - reflexivity.
  - reflexivity.
Defined.

(** C5: with neither an allow-phrase nor a deny-phrase in the lowercased
    text, the gatekeeper looks for "school", separators and a non-empty
    run of lowercase letters, digits and spaces.  When there is one, the
    run the pattern captures decides: without "my school" in it the
    guardrail trips and [school_name] is the run with its blanks stripped,
    with "my school" in it the answer is [allowed = True]; when there is
    none the answer is [allowed = True] too. *)
Theorem gatekeeper_structured_parse :
  forall input,
    let t := normalized input in
    let u := unified input in
    ~ allow_phrase t ->
    ~ deny_phrase t ->
    (forall g,
        FirstSchoolCapture t g ->
        found_group (search school_pattern t) (Some g)
        /\ (~ Substring (str "my school") g ->
            gatekeeper_guardrail input
            = Some (mkOutput (info_school (strip g) u) true))
        /\ (Substring (str "my school") g ->
            gatekeeper_guardrail input
            = Some (mkOutput (info_allowed u) false)))
    /\ ((exists g, SchoolMatch t g) -> exists g, FirstSchoolCapture t g)
    /\ (~ (exists g, SchoolMatch t g) ->
        gatekeeper_guardrail input = Some (mkOutput (info_allowed u) false)).
Proof.
  intros input t u Ha Hd. subst t u.
  pose proof (gatekeeper_parse_cases input Ha Hd) as Hc.
  split; [|split].
  - intros g H. apply first_school_capture_spec in H. rewrite H in Hc.
    split; [|split].
    + pose proof (search_school_pattern (normalized input)) as Hs.
      rewrite H in Hs. exact Hs.
    + intros Hno. apply contains_false in Hno. now rewrite Hno in Hc.
    + intros Hyes. apply contains_spec in Hyes. now rewrite Hyes in Hc.
  - intros (g & Hg). destruct (school_capture_complete _ _ Hg) as [g' E].
    exists g'. now apply first_school_capture_spec.
  - intros Hnone.
    destruct (school_capture (normalized input)) as [g|] eqn:E;
      [|exact Hc].
    elim Hnone. exists g. now apply school_capture_sound.
Qed.

Lemma gatekeeper_structured_parse_witness :
  let input := InputOther (PyStr (str "School: Greenwood High!")) in
  FirstSchoolCapture (normalized input) (str "greenwood high")
  /\ gatekeeper_guardrail input
     = Some (mkOutput (info_school (str "greenwood high") (unified input))
                      true).
Proof.
  intros input.
  assert (Hg : FirstSchoolCapture (normalized input) (str "greenwood high")).
  { apply first_school_capture_spec. vm_compute. reflexivity. }
  split; [exact Hg|].
  assert (Ha : ~ allow_phrase (normalized input)) by no_allow_phrase.
  assert (Hd : ~ deny_phrase (normalized input)) by no_deny_phrase.
  destruct (proj1 (gatekeeper_structured_parse input Ha Hd) _ Hg)
    as (_ & Htrip & _).
  apply Htrip. apply contains_false. vm_compute. reflexivity.
Defined.

(** C9: a text that names the speaker's own school only can trip the
    gatekeeper.  For "my school is great" the pattern captures
    "is great", which has no "my school" in it, and the guardrail trips
    with [school_name] "is great".  In general, with neither an
    allow-phrase nor a deny-phrase in the text, "school" followed by a
    letter, digit or space is enough for the pattern to match, and the
    guardrail trips unless the captured run holds "my school". *)
Theorem gatekeeper_trips_on_own_school :
  gatekeeper_guardrail (InputOther (PyStr (str "my school is great")))
  = Some (mkOutput (info_school (str "is great") (str "my school is great"))
                   true)
  /\ FirstSchoolCapture (str "my school is great") (str "is great")
  /\ (forall input pre c post,
         ~ allow_phrase (normalized input) ->
         ~ deny_phrase (normalized input) ->
         normalized input = pre ++ str "school" ++ c :: post ->
         is_name c = true ->
         exists g,
           FirstSchoolCapture (normalized input) g
           /\ found_group (search school_pattern (normalized input)) (Some g)
           /\ (~ Substring (str "my school") g ->
               gatekeeper_guardrail input
               = Some (mkOutput (info_school (strip g) (unified input))
                                true))).
Proof.
  split; [vm_compute; reflexivity|].
  split; [apply first_school_capture_spec; vm_compute; reflexivity|].
  intros input pre c post Ha Hd Et Hc.
  assert (Hm : SchoolMatch (normalized input) [c]).
  { exists pre, [], post. rewrite Et.
    repeat split; [constructor | discriminate | now constructor]. }
  destruct (school_capture_complete _ _ Hm) as [g E].
  exists g. repeat split.
  - now apply first_school_capture_spec.
  - pose proof (search_school_pattern (normalized input)) as Hs.
    rewrite E in Hs. exact Hs.
  - intros Hno. rewrite (gatekeeper_parse_cases input Ha Hd), E.
    apply contains_false in Hno. now rewrite Hno.
Qed.

Lemma gatekeeper_trips_on_own_school_witness :
  let input := InputList [PyStr (str "My School"); PyStr (str "is great")] in
  exists g,
    FirstSchoolCapture (normalized input) g
    /\ found_group (search school_pattern (normalized input)) (Some g).
Proof.
  intros input.
  assert (Ha : ~ allow_phrase (normalized input)) by no_allow_phrase.
  assert (Hd : ~ deny_phrase (normalized input)) by no_deny_phrase.
  destruct (proj2 (proj2 gatekeeper_trips_on_own_school) input
              (str "my ") " "%char (str "is great") Ha Hd
              eq_refl eq_refl) as (g & H1 & H2 & _).
  exists g. split; [exact H1 | exact H2].
Defined.

(* ================================================================== *)
(** ** Further properties of the guardrails *)
(* ================================================================== *)

Section TextLemmas.

Lemma lower_char_idempotent c : lower_char (lower_char c) = lower_char c.
Proof. destruct c as [[] [] [] [] [] [] [] []]; vm_compute; reflexivity. Qed.

Lemma lower_idempotent s : lower (lower s) = lower s.
Proof.
  unfold lower. rewrite map_map. apply map_ext.
  exact lower_char_idempotent.
Qed.

Lemma lower_app a b : lower (a ++ b) = lower a ++ lower b.
Proof. apply map_app. Qed.

Lemma substring_refl s : Substring s s.
Proof. exists [], []. now rewrite app_nil_r. Qed.

Lemma substring_trans a b c : Substring a b -> Substring b c -> Substring a c.
Proof.
  intros (p1 & q1 & ->) (p2 & q2 & ->).
  exists (p2 ++ p1), (q1 ++ q2). now rewrite <- !app_assoc.
Qed.

Lemma substring_lower n h : Substring n h -> Substring (lower n) (lower h).
Proof.
  intros (pre & post & ->). exists (lower pre), (lower post).
  now rewrite !lower_app.
Qed.

Lemma substring_app_r a b c : Substring a b -> Substring a (b ++ c).
Proof.
  intros (p & q & ->). exists p, (q ++ c). now rewrite <- !app_assoc.
Qed.

Lemma substring_app_l a b c : Substring a b -> Substring a (c ++ b).
Proof.
  intros (p & q & ->). exists (c ++ p), q. now rewrite <- !app_assoc.
Qed.

Lemma join_head sep p ps : exists r, join sep (p :: ps) = p ++ r.
Proof.
  destruct ps as [|q ps].
  - exists []. cbn. now rewrite app_nil_r.
  - eexists. apply join_cons2.
Qed.

Lemma substring_join sep p :
  forall parts, In p parts -> Substring p (join sep parts).
Proof.
  induction parts as [|q parts IH]; intros Hin; [destruct Hin|].
  destruct parts as [|r ps].
  - destruct Hin as [->|[]]. apply substring_refl.
  - rewrite join_cons2. destruct Hin as [->|Hin].
    + apply substring_app_r, substring_refl.
    + apply substring_app_l, substring_app_l. now apply IH.
Qed.

Lemma join_app sep :
  forall l1 l2,
    l1 <> [] -> l2 <> [] ->
    join sep (l1 ++ l2) = join sep l1 ++ sep ++ join sep l2.
Proof.
  induction l1 as [|p l1 IH]; intros l2 H1 H2; [congruence|].
  destruct l1 as [|q l1].
  - destruct l2 as [|r l2]; [congruence|]. cbn [app]. apply join_cons2.
  - cbn [app]. rewrite !join_cons2.
    change (q :: l1 ++ l2) with ((q :: l1) ++ l2).
    rewrite IH by (auto; discriminate). now rewrite <- !app_assoc.
Qed.

(** Two neighbours of a join meet across one separator. *)
Lemma substring_join_adjacent sep p q :
  forall l1 l2, Substring (p ++ sep ++ q) (join sep (l1 ++ p :: q :: l2)).
Proof.
  intros l1 l2.
  assert (H : Substring (p ++ sep ++ q) (join sep (p :: q :: l2))).
  { rewrite join_cons2. destruct (join_head sep q l2) as [r ->].
    exists [], r. cbn [app]. now rewrite <- !app_assoc. }
  destruct l1 as [|x l1]; [exact H|].
  rewrite join_app by discriminate.
  now apply substring_app_l, substring_app_l.
Qed.

Lemma unified_list items :
  unified (InputList items) = join (str " ") (map element_text items).
Proof.
  cbn [unified]. f_equal. apply map_ext. exact element_text_getattr.
Qed.

Lemma normalized_element items x :
  In x items ->
  Substring (lower (element_text x)) (normalized (InputList items)).
Proof.
  intros Hin. unfold normalized. rewrite unified_list.
  apply substring_lower, substring_join. now apply in_map.
Qed.

Lemma normalized_app l1 l2 :
  l1 <> [] -> l2 <> [] ->
  normalized (InputList (l1 ++ l2))
  = normalized (InputList l1) ++ " "%char :: normalized (InputList l2).
Proof.
  intros H1 H2. unfold normalized. rewrite !unified_list, map_app.
  rewrite join_app.
  - now rewrite !lower_app.
  - destruct l1; [congruence | discriminate].
  - destruct l2; [congruence | discriminate].
Qed.

Lemma class_timing_flag input :
  tripwire_triggered (class_timing_guardrail input)
  = contains (str "change my class timing") (normalized input)
    || contains (str "change my class timings") (normalized input).
Proof.
  unfold class_timing_guardrail, normalized.
  destruct (_ || _); reflexivity.
Qed.

End TextLemmas.

(** X1: the class-timing guardrail trips exactly when the lowercased text
    contains "change my class timing": the second test, for
    "change my class timings", never decides. *)
Theorem class_timing_one_phrase :
  forall input,
    tripwire_triggered (class_timing_guardrail input)
    = contains (str "change my class timing") (normalized input).
Proof.
  intros input. rewrite class_timing_flag.
  destruct (contains (str "change my class timing") (normalized input))
    eqn:E; [reflexivity|].
  cbn [orb]. apply contains_false. intros H.
  apply contains_false in E. apply E.
  apply substring_trans with (b := str "change my class timings");
    [|exact H].
  exists [], (str "s"). reflexivity.
Qed.

(** X2: padding does not hide the phrase from the class-timing guardrail:
    a list trips as soon as one of its elements, given alone, trips. *)
Theorem class_timing_list_monotone :
  forall items x,
    In x items ->
    tripwire_triggered (class_timing_guardrail (InputList [x])) = true ->
    tripwire_triggered (class_timing_guardrail (InputList items)) = true.
Proof.
  intros items x Hin. rewrite !class_timing_flag, !orb_true_iff, !contains_spec.
  assert (Hx : normalized (InputList [x]) = lower (element_text x)).
  { unfold normalized. now rewrite unified_list. }
  rewrite Hx.
  pose proof (normalized_element items x Hin) as Hsub.
  intros [H|H]; [left|right]; eapply substring_trans; eauto.
Qed.

Lemma class_timing_list_monotone_witness :
  let x := PyStr (str "Please CHANGE my class timing") in
  let items := [PyStr (str "Hello"); x;
                PyObj [("content"%string, PyStr (str "thanks"))] (str "msg")] in
  tripwire_triggered (class_timing_guardrail (InputList items)) = true.
Proof.
  intros x items.
  apply (class_timing_list_monotone items x).
  - right. left. reflexivity.
  - vm_compute. reflexivity.
Defined.

(** X3: the phrase is found across two neighbouring elements of a list,
    because they are joined by one space: when one element ends, in lower
    case, with "change my class" and the next begins with "timing", the
    class-timing guardrail trips. *)
Theorem class_timing_phrase_across_elements :
  forall l1 a b l2 before after,
    lower (element_text a) = before ++ str "change my class" ->
    lower (element_text b) = str "timing" ++ after ->
    tripwire_triggered
      (class_timing_guardrail (InputList (l1 ++ a :: b :: l2))) = true.
Proof.
  intros l1 a b l2 before after Ha Hb.
  rewrite class_timing_flag, orb_true_iff, !contains_spec. left.
  unfold normalized. rewrite unified_list, map_app. cbn [map].
  eapply substring_trans;
    [|apply substring_lower, substring_join_adjacent].
  rewrite !lower_app, Ha, Hb.
  exists before, after.
  change (lower (str " ")) with (str " ").
  rewrite <- !app_assoc. reflexivity.
Qed.

Lemma class_timing_phrase_across_elements_witness :
  let a := PyStr (str "I want to Change my class") in
  let b := PyStr (str "timing today") in
  tripwire_triggered (class_timing_guardrail (InputList [a])) = false
  /\ tripwire_triggered (class_timing_guardrail (InputList [b])) = false
  /\ tripwire_triggered (class_timing_guardrail (InputList [a; b])) = true.
Proof.
  intros a b. split; [vm_compute; reflexivity|].
  split; [vm_compute; reflexivity|].
  apply (class_timing_phrase_across_elements [] a b []
           (str "i want to ") (str " today")); reflexivity.
Defined.

Section TemperatureLemmas.

Lemma dict_get_beside_text k key val u1 u2 :
  k <> "text"%string ->
  dict_get k [(key, val); ("text"%string, VStr u1)]
  = dict_get k [(key, val); ("text"%string, VStr u2)].
Proof.
  intros Hk. cbn [dict_get]. destruct (String.eqb key k); [reflexivity|].
  destruct (String.eqb_spec "text" k); [congruence | reflexivity].
Qed.

(** The temperature verdict is a function of the first digit group. *)
Lemma father_temp_same input1 input2 :
  first_digit_group (normalized input1)
  = first_digit_group (normalized input2) ->
  exists v1 v2,
    father_temp_guardrail input1 = Some v1
    /\ father_temp_guardrail input2 = Some v2
    /\ tripwire_triggered v1 = tripwire_triggered v2
    /\ (forall k, k <> "text"%string ->
                  dict_get k (output_info v1) = dict_get k (output_info v2)).
Proof.
  intros E.
  pose proof (father_temp_cases input1) as C1.
  pose proof (father_temp_cases input2) as C2.
  rewrite E in C1.
  destruct (first_digit_group (normalized input2)) as [g|].
  - destruct C1 as (t1 & E1 & ->), C2 as (t2 & E2 & ->).
    assert (t1 = t2) by congruence. subst t2.
    do 2 eexists. repeat split. intros k Hk.
    now apply dict_get_beside_text.
  - rewrite C1, C2. do 2 eexists. repeat split. intros k Hk.
    now apply dict_get_beside_text.
Qed.

Lemma digit_value_range c :
  isdecimal c = true -> (0 <= digit_value c <= 9)%Z.
Proof.
  unfold isdecimal, between, digit_value. intros H.
  apply andb_true_iff in H as [H1 H2].
  apply Nat.leb_le in H1, H2. lia.
Qed.

Lemma int_one_digit c :
  isdecimal c = true -> int [c] = Some (digit_value c).
Proof.
  intros Hc. unfold int. cbn [int_acc]. rewrite Hc. f_equal; lia.
Qed.

Lemma int_two_digits c d :
  isdecimal c = true -> isdecimal d = true ->
  int [c; d] = Some (10 * digit_value c + digit_value d)%Z.
Proof.
  intros Hc Hd. unfold int. cbn [int_acc]. rewrite Hc, Hd. f_equal; lia.
Qed.

Lemma int_digit_group_range t g n :
  FirstDigitGroup t g -> int g = Some n -> (0 <= n <= 99)%Z.
Proof.
  intros (pre & post & _ & _ & Hg & Hlen & _) Hn.
  destruct g as [|c [|d [|e g]]]; simpl in Hlen; try lia.
  - inversion_clear Hg as [|? ? Hc _].
    rewrite (int_one_digit _ Hc) in Hn. injection Hn as <-.
    pose proof (digit_value_range _ Hc). lia.
  - inversion_clear Hg as [|? ? Hc Hg']. inversion_clear Hg' as [|? ? Hd _].
    rewrite (int_two_digits _ _ Hc Hd) in Hn.
    assert (n = (10 * digit_value c + digit_value d)%Z) by congruence.
    subst n.
    pose proof (digit_value_range _ Hc). pose proof (digit_value_range _ Hd).
    lia.
Qed.

Lemma first_digit_group_skip pre t :
  Forall (fun c => isdecimal c = false) pre ->
  first_digit_group (pre ++ t) = first_digit_group t.
Proof.
  unfold first_digit_group.
  induction pre as [|c pre IH]; intros H; [reflexivity|].
  inversion_clear H as [|? ? Hc Hpre].
  cbn [app]. rewrite first_found_unfold.
  rewrite (digit_group_here_nondigit _ _ Hc). now apply IH.
Qed.

Lemma first_digit_group_extend t g c more :
  first_digit_group t = Some g ->
  isdecimal c = false ->
  first_digit_group (t ++ c :: more) = Some g.
Proof.
  intros Hg Hc. apply first_digit_group_sound in Hg.
  apply first_digit_group_complete.
  destruct Hg as (pre & post & -> & H1 & H2 & H3 & H4).
  exists pre, (post ++ c :: more).
  rewrite <- !app_assoc. repeat split; auto; try lia.
  destruct H4 as [H4|H4]; [now left | right].
  destruct post; [exact Hc | exact H4].
Qed.

Lemma normalized_cons x items :
  normalized (InputList (x :: items))
  = lower (element_text x)
      ++ match items with
         | [] => []
         | _ :: _ => " "%char :: normalized (InputList items)
         end.
Proof.
  destruct items as [|y items].
  - unfold normalized. rewrite unified_list. cbn. now rewrite app_nil_r.
  - change (x :: y :: items) with ([x] ++ y :: items).
    rewrite normalized_app by discriminate.
    f_equal. unfold normalized. now rewrite unified_list.
Qed.

Lemma normalized_digit_free items :
  (forall x, In x items ->
             Forall (fun c => isdecimal c = false) (lower (element_text x))) ->
  Forall (fun c => isdecimal c = false) (normalized (InputList items)).
Proof.
  induction items as [|x items IH]; intros H; [constructor|].
  rewrite normalized_cons. apply Forall_app. split.
  - apply H. now left.
  - destruct items as [|y items]; [constructor|].
    constructor; [reflexivity|]. apply IH. intros z Hz. apply H. now right.
Qed.

End TemperatureLemmas.

(** X4: the three guardrails match without regard to letter case: two
    inputs with the same lowercased text get the same flag and the same
    diagnostics apart from the "text" entry. *)
Theorem verdicts_ignore_case :
  forall input1 input2,
    normalized input1 = normalized input2 ->
    (tripwire_triggered (class_timing_guardrail input1)
     = tripwire_triggered (class_timing_guardrail input2)
     /\ forall k, k <> "text"%string ->
          dict_get k (output_info (class_timing_guardrail input1))
          = dict_get k (output_info (class_timing_guardrail input2)))
    /\ (exists v1 v2,
           father_temp_guardrail input1 = Some v1
           /\ father_temp_guardrail input2 = Some v2
           /\ tripwire_triggered v1 = tripwire_triggered v2
           /\ forall k, k <> "text"%string ->
                dict_get k (output_info v1) = dict_get k (output_info v2))
    /\ (exists v1 v2,
           gatekeeper_guardrail input1 = Some v1
           /\ gatekeeper_guardrail input2 = Some v2
           /\ tripwire_triggered v1 = tripwire_triggered v2
           /\ forall k, k <> "text"%string ->
                dict_get k (output_info v1) = dict_get k (output_info v2)).
Proof.
  intros input1 input2 E. split; [|split].
  - unfold class_timing_guardrail. fold (normalized input1).
    fold (normalized input2). rewrite E.
    destruct (_ || _); (split; [reflexivity|]); intros k Hk;
      now apply dict_get_beside_text.
  - apply father_temp_same. now rewrite E.
  - rewrite !gatekeeper_cases. cbv zeta. rewrite E.
    destruct (_ || _);
      [do 2 eexists; repeat split; intros k Hk;
       now apply dict_get_beside_text|].
    destruct (first_trigger _ _);
      [do 2 eexists; repeat split; intros k Hk;
       now apply dict_get_beside_text|].
    destruct (school_capture _) as [g|];
      [destruct (contains _ g)|];
      do 2 eexists; repeat split; intros k Hk;
      now apply dict_get_beside_text.
Qed.

Lemma verdicts_ignore_case_witness :
  let input1 := InputOther (PyStr (str "STUDENT FROM Other School, 24 C")) in
  let input2 :=
    InputList [PyStr (str "student from"); PyStr (str "other school, 24 c")] in
  tripwire_triggered (class_timing_guardrail input1)
  = tripwire_triggered (class_timing_guardrail input2).
Proof.
  intros input1 input2.
  exact (proj1 (proj1 (verdicts_ignore_case input1 input2 eq_refl))).
Defined.

(** X5: the temperature guardrail always returns, and what it reports as
    [detected_temp] is either [None], with the flag off, or an integer
    from 0 to 99, with the flag on exactly when it is below 26. *)
Theorem father_temp_detected_range :
  forall input,
    exists v,
      father_temp_guardrail input = Some v
      /\ ((dict_get "detected_temp" (output_info v) = Some VNone
           /\ tripwire_triggered v = false)
          \/ exists n,
              dict_get "detected_temp" (output_info v) = Some (VInt n)
              /\ (0 <= n <= 99)%Z
              /\ tripwire_triggered v = (n <? 26)%Z).
Proof.
  intros input. pose proof (father_temp_cases input) as C.
  destruct (first_digit_group (normalized input)) as [g|] eqn:E.
  - destruct C as (n & Hn & ->). eexists. split; [reflexivity|].
    right. exists n. repeat split;
      apply (int_digit_group_range (normalized input) g);
      auto using first_digit_group_sound.
  - rewrite C. eexists. split; [reflexivity|]. left. split; reflexivity.
Qed.

(** X6: when the first element of a list has a digit, the elements after
    it change neither the flag nor the [detected_temp] of the temperature
    guardrail: the space of the join keeps its digits apart from the next
    element's. *)
Theorem father_temp_first_element_decides :
  forall x others,
    (exists c, In c (lower (element_text x)) /\ isdecimal c = true) ->
    exists v1 v2,
      father_temp_guardrail (InputList (x :: others)) = Some v1
      /\ father_temp_guardrail (InputList [x]) = Some v2
      /\ tripwire_triggered v1 = tripwire_triggered v2
      /\ dict_get "detected_temp" (output_info v1)
         = dict_get "detected_temp" (output_info v2).
Proof.
  intros x others Hdigit.
  assert (E : first_digit_group (normalized (InputList (x :: others)))
              = first_digit_group (normalized (InputList [x]))).
  { rewrite !normalized_cons, app_nil_r.
    destruct others as [|y others]; [now rewrite app_nil_r|].
    destruct (first_digit_group_exists _ Hdigit) as [g Hg].
    apply first_digit_group_complete in Hg. rewrite Hg.
    now apply first_digit_group_extend. }
  destruct (father_temp_same _ _ E) as (v1 & v2 & H1 & H2 & H3 & H4).
  exists v1, v2. repeat split; auto. apply H4. discriminate.
Qed.

Lemma father_temp_first_element_decides_witness :
  let x := PyStr (str "It is 2") in
  let others := [PyStr (str "5 degrees"); PyStr (str "or 30")] in
  exists v1 v2,
    father_temp_guardrail (InputList (x :: others)) = Some v1
    /\ father_temp_guardrail (InputList [x]) = Some v2
    /\ tripwire_triggered v1 = tripwire_triggered v2.
Proof.
  intros x others.
  assert (H : exists c, In c (lower (element_text x)) /\ isdecimal c = true).
  { exists "2"%char. split; [|reflexivity]. vm_compute. tauto. }
  destruct (father_temp_first_element_decides x others H)
    as (v1 & v2 & H1 & H2 & H3 & _).
  exists v1, v2. auto.
Defined.

(** X7: leading elements without a digit have no part in the temperature
    verdict: the list gets the flag and the [detected_temp] of the rest
    of the list. *)
Theorem father_temp_skips_digit_free :
  forall l1 l2,
    l2 <> [] ->
    (forall x,
        In x l1 ->
        Forall (fun c => isdecimal c = false) (lower (element_text x))) ->
    exists v1 v2,
      father_temp_guardrail (InputList (l1 ++ l2)) = Some v1
      /\ father_temp_guardrail (InputList l2) = Some v2
      /\ tripwire_triggered v1 = tripwire_triggered v2
      /\ dict_get "detected_temp" (output_info v1)
         = dict_get "detected_temp" (output_info v2).
Proof.
  intros l1 l2 Hl2 Hfree.
  assert (E : first_digit_group (normalized (InputList (l1 ++ l2)))
              = first_digit_group (normalized (InputList l2))).
  { destruct l1 as [|x l1]; [reflexivity|].
    rewrite normalized_app by (auto; discriminate).
    rewrite first_digit_group_skip by now apply normalized_digit_free.
    apply (first_digit_group_skip [" "%char]). now constructor. }
  destruct (father_temp_same _ _ E) as (v1 & v2 & H1 & H2 & H3 & H4).
  exists v1, v2. repeat split; auto. apply H4. discriminate.
Qed.

Lemma father_temp_skips_digit_free_witness :
  let l1 := [PyStr (str "Dad,"); PyStr (str "may I run?")] in
  let l2 := [PyStr (str "It is 31 C")] in
  exists v1 v2,
    father_temp_guardrail (InputList (l1 ++ l2)) = Some v1
    /\ father_temp_guardrail (InputList l2) = Some v2
    /\ tripwire_triggered v1 = tripwire_triggered v2.
Proof.
  intros l1 l2.
  assert (Hfree : forall x, In x l1 ->
            Forall (fun c => isdecimal c = false) (lower (element_text x))).
  { intros x [<-|[<-|[]]]; repeat constructor. }
  destruct (father_temp_skips_digit_free l1 l2 ltac:(discriminate) Hfree)
    as (v1 & v2 & H1 & H2 & H3 & _).
  exists v1, v2. auto.
Defined.

(** X8: a lone digit always trips the temperature guardrail: when the
    first digit of the lowercased text is not followed by another digit,
    [detected_temp] is that digit and the flag is on. *)
Theorem father_temp_single_digit_trips :
  forall input pre d post,
    normalized input = pre ++ d :: post ->
    Forall (fun c => isdecimal c = false) pre ->
    isdecimal d = true ->
    match post with c :: _ => isdecimal c = false | [] => True end ->
    father_temp_guardrail input
    = Some (mkOutput (info_temp (VInt (digit_value d)) (unified input)) true).
Proof.
  intros input pre d post Et Hpre Hd Hpost.
  assert (Hg : FirstDigitGroup (normalized input) [d]).
  { exists pre, post. rewrite Et. repeat split; simpl; auto. }
  apply first_digit_group_complete in Hg.
  pose proof (father_temp_cases input) as C. rewrite Hg in C.
  destruct C as (n & Hn & ->).
  rewrite (int_one_digit _ Hd) in Hn.
  injection Hn as <-. pose proof (digit_value_range _ Hd) as R.
  replace (digit_value d <? 26)%Z with true; [reflexivity|].
  symmetry. apply Z.ltb_lt. lia.
Qed.

Lemma father_temp_single_digit_trips_witness :
  let input := InputOther (PyStr (str "I ate 3 apples at 40 C")) in
  father_temp_guardrail input
  = Some (mkOutput (info_temp (VInt 3) (unified input)) true).
Proof.
  intros input.
  apply (father_temp_single_digit_trips input (str "i ate ") "3"%char
           (str " apples at 40 c")).
  - reflexivity.
  - repeat constructor.
  - reflexivity.
  - reflexivity.
Defined.

Section GatekeeperLemmas.

Lemma lstrip_split s :
  exists pre, s = pre ++ lstrip s /\ Forall (fun c => isspace c = true) pre.
Proof.
  induction s as [|c s IH]; cbn [lstrip].
  - exists []. split; [reflexivity | constructor].
  - destruct (isspace c) eqn:Hc.
    + destruct IH as (pre & E & Hpre). exists (c :: pre).
      split; [cbn; now rewrite <- E | now constructor].
    + exists []. split; [reflexivity | constructor].
Qed.

Lemma lstrip_head s :
  match lstrip s with c :: _ => isspace c = false | [] => True end.
Proof.
  induction s as [|c s IH]; cbn [lstrip]; [exact I|].
  destruct (isspace c) eqn:Hc; [exact IH | exact Hc].
Qed.

Lemma rstrip_split s :
  exists post, s = rstrip s ++ post /\ Forall (fun c => isspace c = true) post.
Proof.
  unfold rstrip. destruct (lstrip_split (rev s)) as (pre & E & Hpre).
  exists (rev pre). split.
  - rewrite <- rev_app_distr, <- E. now rewrite rev_involutive.
  - now apply Forall_rev.
Qed.

(** What [strip] leaves is the text without the blanks at its two ends. *)
Lemma strip_split s :
  exists pre post,
    s = pre ++ strip s ++ post
    /\ Forall (fun c => isspace c = true) pre
    /\ Forall (fun c => isspace c = true) post.
Proof.
  unfold strip. destruct (lstrip_split s) as (pre & E & Hpre).
  destruct (rstrip_split (lstrip s)) as (post & E' & Hpost).
  exists pre, post. repeat split; auto. now rewrite <- E', <- E.
Qed.

Lemma strip_last s :
  match rev (strip s) with c :: _ => isspace c = false | [] => True end.
Proof.
  unfold strip, rstrip. rewrite rev_involutive. apply lstrip_head.
Qed.

Lemma strip_head s :
  match strip s with c :: _ => isspace c = false | [] => True end.
Proof.
  unfold strip. pose proof (lstrip_head s) as Hh.
  destruct (rstrip_split (lstrip s)) as (post & E & _).
  destruct (rstrip (lstrip s)) as [|c r]; [exact I|].
  rewrite E in Hh. exact Hh.
Qed.

Lemma strip_Forall (P : ascii -> Prop) s : Forall P s -> Forall P (strip s).
Proof.
  intros H. destruct (strip_split s) as (pre & post & E & _).
  rewrite E in H. apply Forall_app in H as [_ H].
  now apply Forall_app in H as [H _].
Qed.

Lemma strip_substring s : Substring (strip s) s.
Proof.
  destruct (strip_split s) as (pre & post & E & _). now exists pre, post.
Qed.

Lemma school_match_substring t g :
  SchoolMatch t g -> Substring (str "school") t /\ Substring g t.
Proof.
  intros (pre & seps & post & -> & _). split.
  - now exists pre, (seps ++ g ++ post).
  - exists (pre ++ str "school" ++ seps), post. now rewrite <- !app_assoc.
Qed.

Lemma first_trigger_in t :
  forall ts d, first_trigger ts t = Some d -> In d ts /\ Substring d t.
Proof.
  intros ts d H.
  destruct (first_trigger_inv _ _ _ H) as (before & after & -> & Hs & _).
  split; [|exact Hs]. apply in_or_app. right. now left.
Qed.

(** Each deny-phrase names a school, but for "student from ". *)
Lemma triggers_mention d :
  In d triggers ->
  Substring (str "school") d \/ d = str "student from ".
Proof.
  intros [<-|[<-|[<-|[<-|[<-|[]]]]]];
    try (left; apply contains_spec; vm_compute; reflexivity).
  now right.
Qed.

(** A character that is both a separator and part of a name is the
    space. *)
Lemma sep_and_name c : is_sep c = true -> is_name c = true -> c = " "%char.
Proof.
  destruct c as [[] [] [] [] [] [] [] []]; vm_compute;
    intros; try discriminate; reflexivity.
Qed.

Lemma capture_after_no_blank :
  forall s,
    Forall (fun c => is_sep c = true) s ->
    ~ In " "%char s ->
    capture_after s = None.
Proof.
  induction s as [|c s IH]; intros Hs Hno; [reflexivity|].
  inversion_clear Hs as [|? ? Hc Hs'].
  cbn [capture_after].
  rewrite Hc, IH; [|exact Hs'|intros H; apply Hno; now right].
  unfold name_run. cbn [take_run hi_is_zero].
  destruct (is_name c) eqn:Hn; [|reflexivity].
  elim Hno. left. now apply sep_and_name.
Qed.

(** Separators alone, one of them a space, leave that space as the
    name. *)
Lemma capture_after_blank :
  forall s,
    Forall (fun c => is_sep c = true) s ->
    In " "%char s ->
    capture_after s = Some [" "%char].
Proof.
  induction s as [|c s IH]; intros Hs Hin; [destruct Hin|].
  inversion_clear Hs as [|? ? Hc Hs'].
  cbn [capture_after]. rewrite Hc.
  destruct (in_dec ascii_dec " "%char s) as [Hyes|Hno].
  - now rewrite IH.
  - destruct Hin as [->|Hin]; [|contradiction].
    rewrite (capture_after_no_blank s Hs' Hno).
    unfold name_run. cbn [take_run hi_is_zero].
    change (is_name " ") with true. cbv iota.
    destruct s as [|x s]; [reflexivity|].
    cbn [take_run hi_is_zero].
    destruct (is_name x) eqn:Hx; [|reflexivity].
    inversion_clear Hs' as [|? ? Hsx _].
    elim Hno. left. now apply sep_and_name.
Qed.

Lemma first_found_skip here pre s :
  (forall p1 p2, pre = p1 ++ p2 -> p2 <> [] -> here (p2 ++ s) = None) ->
  first_found here (pre ++ s) = first_found here s.
Proof.
  induction pre as [|c pre IH]; intros H; [reflexivity|].
  rewrite first_found_unfold.
  rewrite (H [] (c :: pre) eq_refl) by discriminate.
  cbn [app]. apply IH. intros p1 p2 -> Hp2. now apply (H (c :: p1) p2).
Qed.

(** The verdict is a function of the flattened input. *)
Lemma verdicts_of_unified input1 input2 :
  unified input1 = unified input2 ->
  class_timing_guardrail input1 = class_timing_guardrail input2
  /\ father_temp_guardrail input1 = father_temp_guardrail input2
  /\ gatekeeper_guardrail input1 = gatekeeper_guardrail input2.
Proof.
  intros E.
  unfold class_timing_guardrail, father_temp_guardrail, gatekeeper_guardrail.
  rewrite E. repeat split.
Qed.

End GatekeeperLemmas.

(** X9: the gatekeeper trips only on a text that has "school" or
    "student from " in it: without both, in lower case, the answer is
    [allowed = True] with the flag off. *)
Theorem gatekeeper_needs_marker :
  forall input,
    ~ Substring (str "school") (normalized input) ->
    ~ Substring (str "student from ") (normalized input) ->
    gatekeeper_guardrail input
    = Some (mkOutput (info_allowed (unified input)) false).
Proof.
  intros input Hschool Hstudent. rewrite gatekeeper_cases. cbv zeta.
  destruct (_ || _); [reflexivity|].
  destruct (first_trigger triggers (normalized input)) as [d|] eqn:Ed.
  - exfalso. destruct (first_trigger_in _ _ _ Ed) as [Hin Hs].
    destruct (triggers_mention d Hin) as [H| ->].
    + apply Hschool. eapply substring_trans; eauto.
    + now apply Hstudent.
  - destruct (school_capture (normalized input)) as [g|] eqn:Eg;
      [|reflexivity].
    exfalso. apply Hschool.
    now apply (school_match_substring _ g), school_capture_sound.
Qed.

Lemma gatekeeper_needs_marker_witness :
  let input := InputOther (PyStr (str "A pupil of the Other Academy, no. 7")) in
  gatekeeper_guardrail input
  = Some (mkOutput (info_allowed (unified input)) false).
Proof.
  intros input. apply gatekeeper_needs_marker;
    apply contains_false; vm_compute; reflexivity.
Defined.

(** X10: two of the five deny-phrases never decide.  A text with
    "not from my school" has the allow-phrase "from my school" in it and
    is allowed; and when the loop over the deny-phrases returns, it
    returns at "other school", "different school" or "student from ". *)
Theorem gatekeeper_dead_deny_phrases :
  forall input,
    (Substring (str "not from my school") (normalized input) ->
     gatekeeper_guardrail input
     = Some (mkOutput (info_allowed (unified input)) false))
    /\ (forall d,
           ~ allow_phrase (normalized input) ->
           first_trigger triggers (normalized input) = Some d ->
           d = str "other school" \/ d = str "different school"
           \/ d = str "student from ").
Proof.
  intros input. split.
  - intros H. rewrite gatekeeper_cases. cbv zeta.
    assert (Ha : allow_phrase (normalized input)).
    { left. eapply substring_trans; [|exact H].
      exists (str "not "), []. reflexivity. }
    apply allow_phrase_spec in Ha. now rewrite Ha.
  - intros d Ha. unfold triggers. cbn [first_trigger].
    destruct (contains (str "other school") (normalized input)) eqn:E1;
      [intros [= <-]; auto|].
    destruct (contains (str "different school") (normalized input));
      [intros [= <-]; auto|].
    destruct (contains (str "not from my school") (normalized input)) eqn:E3.
    { exfalso. apply Ha. left. apply contains_spec in E3.
      eapply substring_trans; [|exact E3].
      exists (str "not "), []. reflexivity. }
    destruct (contains (str "from other school") (normalized input)) eqn:E4.
    { exfalso. apply contains_false in E1. apply E1.
      apply contains_spec in E4.
      eapply substring_trans; [|exact E4].
      exists (str "from "), []. reflexivity. }
    destruct (contains (str "student from ") (normalized input));
      [intros [= <-]; auto | discriminate].
Qed.

Lemma gatekeeper_dead_deny_phrases_witness :
  let input := InputOther (PyStr (str "I am NOT from My School")) in
  gatekeeper_guardrail input
  = Some (mkOutput (info_allowed (unified input)) false).
Proof.
  intros input. apply (proj1 (gatekeeper_dead_deny_phrases input)).
  has_phrase.
Defined.

(** X11: one element with an allow-phrase lets a whole list through the
    gatekeeper: whatever the other elements say, the answer is
    [allowed = True] with the flag off. *)
Theorem gatekeeper_allow_in_one_element :
  forall items x,
    In x items ->
    allow_phrase (lower (element_text x)) ->
    gatekeeper_guardrail (InputList items)
    = Some (mkOutput (info_allowed (unified (InputList items))) false).
Proof.
  intros items x Hin Ha. rewrite gatekeeper_cases. cbv zeta.
  assert (H : allow_phrase (normalized (InputList items))).
  { pose proof (normalized_element items x Hin) as Hsub.
    destruct Ha as [Ha|Ha]; [left|right]; eapply substring_trans; eauto. }
  apply allow_phrase_spec in H. now rewrite H.
Qed.

Lemma gatekeeper_allow_in_one_element_witness :
  let first := PyStr (str "Student from other school: Hogwarts") in
  let x := PyObj [("content"%string, PyStr (str "I am from My School"))]
                 (str "Message(...)") in
  option_map tripwire_triggered (gatekeeper_guardrail (InputList [first]))
  = Some true
  /\ gatekeeper_guardrail (InputList [first; x])
     = Some (mkOutput (info_allowed (unified (InputList [first; x]))) false).
Proof.
  intros first x. split; [vm_compute; reflexivity|].
  apply (gatekeeper_allow_in_one_element [first; x] x).
  - right. left. reflexivity.
  - left. has_phrase.
Defined.

(** X12: a [school_name] in the gatekeeper's diagnostics comes with the
    flag on, is made of lowercase letters, digits and spaces, neither
    begins nor ends with a blank, has no "my school" in it and occurs in
    the lowercased text. *)
Theorem gatekeeper_school_name_shape :
  forall input v name,
    gatekeeper_guardrail input = Some v ->
    dict_get "school_name" (output_info v) = Some (VStr name) ->
    tripwire_triggered v = true
    /\ Forall (fun c => is_name c = true) name
    /\ match name with c :: _ => isspace c = false | [] => True end
    /\ match rev name with c :: _ => isspace c = false | [] => True end
    /\ ~ Substring (str "my school") name
    /\ Substring name (normalized input).
Proof.
  intros input v name. rewrite gatekeeper_cases. cbv zeta.
  destruct (_ || _); [intros [= <-]; discriminate|].
  destruct (first_trigger _ _); [intros [= <-]; discriminate|].
  destruct (school_capture (normalized input)) as [g|] eqn:Eg;
    [|intros [= <-]; discriminate].
  destruct (contains (str "my school") g) eqn:Em;
    [intros [= <-]; discriminate|].
  intros [= <-]. cbn. intros [= <-].
  apply school_capture_sound in Eg.
  destruct (school_match_substring _ _ Eg) as [_ Hsub].
  destruct Eg as (pre & seps & post & _ & _ & _ & Hname).
  repeat split.
  - now apply strip_Forall.
  - apply strip_head.
  - apply strip_last.
  - apply contains_false. now rewrite contains_strip_my_school.
  - eapply substring_trans; [apply strip_substring | exact Hsub].
Qed.

Lemma gatekeeper_school_name_shape_witness :
  let input := InputOther (PyStr (str "School:   Oak Hill 7  ! ok")) in
  exists v,
    gatekeeper_guardrail input = Some v
    /\ dict_get "school_name" (output_info v) = Some (VStr (str "oak hill 7"))
    /\ tripwire_triggered v = true.
Proof.
  intros input.
  assert (H : exists v, gatekeeper_guardrail input = Some v
                        /\ dict_get "school_name" (output_info v)
                           = Some (VStr (str "oak hill 7"))).
  { eexists. split; vm_compute; reflexivity. }
  destruct H as (v & Hv & Hn). exists v. repeat split; auto.
  exact (proj1 (gatekeeper_school_name_shape input v _ Hv Hn)).
Defined.

(** X13: the gatekeeper's diagnostics tell its flag: the flag is off
    exactly when they hold [allowed = True], and on exactly when they
    hold the reason "other school detected" or a [school_name]. *)
Theorem gatekeeper_diagnostics_tell_flag :
  forall input,
    exists v,
      gatekeeper_guardrail input = Some v
      /\ (tripwire_triggered v = false
          <-> dict_get "allowed" (output_info v) = Some (VBool true))
      /\ (tripwire_triggered v = true
          <-> dict_get "reason" (output_info v)
              = Some (VStr (str "other school detected"))
              \/ exists name,
                  dict_get "school_name" (output_info v) = Some (VStr name)).
Proof.
  intros input. rewrite gatekeeper_cases. cbv zeta.
  assert (Hoff : forall u,
             let v := mkOutput (info_allowed u) false in
             (tripwire_triggered v = false
              <-> dict_get "allowed" (output_info v) = Some (VBool true))
             /\ (tripwire_triggered v = true
                 <-> dict_get "reason" (output_info v)
                     = Some (VStr (str "other school detected"))
                     \/ exists name,
                         dict_get "school_name" (output_info v)
                         = Some (VStr name))).
  { intros u. cbn. repeat split; auto; try discriminate.
    intros [H|[name H]]; discriminate. }
  destruct (_ || _); [eexists; split; [reflexivity | apply Hoff]|].
  destruct (first_trigger _ _).
  { eexists. split; [reflexivity|]. cbn. repeat split; auto; discriminate. }
  destruct (school_capture _) as [g|];
    [|eexists; split; [reflexivity | apply Hoff]].
  destruct (contains _ g); [eexists; split; [reflexivity | apply Hoff]|].
  eexists. split; [reflexivity|]. cbn. repeat split; try discriminate.
  intros _. right. eexists. reflexivity.
Qed.

(** X14: the gatekeeper can trip with an empty [school_name].  When the
    lowercased text has neither an allow-phrase nor a deny-phrase, and
    its only "school" is followed to the end by separators, one of them
    a space, the pattern captures that space and the guardrail trips
    with [school_name] empty. *)
Theorem gatekeeper_empty_school_name :
  forall input pre seps,
    normalized input = pre ++ str "school" ++ seps ->
    (forall p q, normalized input = p ++ str "school" ++ q -> p = pre) ->
    Forall (fun c => is_sep c = true) seps ->
    In " "%char seps ->
    ~ allow_phrase (normalized input) ->
    ~ deny_phrase (normalized input) ->
    gatekeeper_guardrail input
    = Some (mkOutput (info_school [] (unified input)) true).
Proof.
  intros input pre seps Et Honly Hseps Hblank Ha Hd.
  rewrite (gatekeeper_parse_cases input Ha Hd).
  assert (Ec : school_capture (normalized input) = Some [" "%char]).
  { rewrite Et. unfold school_capture. rewrite first_found_skip.
    - rewrite first_found_unfold. unfold capture_here.
      rewrite startswith_app.
      change (skipn 6 (str "school" ++ seps)) with seps.
      now rewrite capture_after_blank.
    - intros p1 p2 Ep Hp2. unfold capture_here.
      destruct (startswith (str "school") (p2 ++ str "school" ++ seps))
        eqn:Es; [|reflexivity].
      exfalso. destruct (startswith_inv _ _ Es) as [r Er].
      assert (E1 : p1 = pre).
      { apply (Honly p1 r). rewrite Et, Ep, <- app_assoc. now rewrite Er. }
      rewrite Ep in E1. rewrite <- (app_nil_r p1) in E1 at 1.
      apply app_inv_head in E1. congruence. }
  rewrite Ec. reflexivity.
Qed.

Lemma gatekeeper_empty_school_name_witness :
  let input := InputOther (PyStr (str "My School - ")) in
  gatekeeper_guardrail input
  = Some (mkOutput (info_school [] (unified input)) true).
Proof.
  intros input.
  apply (gatekeeper_empty_school_name input (str "my ") (str " - ")).
  - reflexivity.
  - intros p q E. vm_compute in E.
    do 13 (destruct p as [|? p]; [cbn in E; vm_compute; congruence|]).
    cbn in E. congruence.
  - repeat constructor.
  - left. reflexivity.
  - no_allow_phrase.
  - no_deny_phrase.
Defined.

(** X15: flattening a list composes: the text of two non-empty lists put
    end to end is the text of the first, one space, and the text of the
    second, so the three guardrails return on the whole list what they
    return on the two texts given as a list of two strings. *)
Theorem unified_app :
  forall l1 l2,
    l1 <> [] -> l2 <> [] ->
    let joined := InputList (l1 ++ l2) in
    let halves := InputList [PyStr (unified (InputList l1));
                             PyStr (unified (InputList l2))] in
    unified joined
    = unified (InputList l1) ++ " "%char :: unified (InputList l2)
    /\ class_timing_guardrail joined = class_timing_guardrail halves
    /\ father_temp_guardrail joined = father_temp_guardrail halves
    /\ gatekeeper_guardrail joined = gatekeeper_guardrail halves.
Proof.
  intros l1 l2 H1 H2 joined halves.
  assert (E : unified joined
              = unified (InputList l1) ++ " "%char :: unified (InputList l2)).
  { subst joined. rewrite !unified_list, map_app. apply join_app.
    - destruct l1; [congruence | discriminate].
    - destruct l2; [congruence | discriminate]. }
  split; [exact E|]. apply verdicts_of_unified. rewrite E. reflexivity.
Qed.

Lemma unified_app_witness :
  let l1 := [PyStr (str "Hello"); PyStr (str "Dad")] in
  let l2 := [PyObj [("content"%string, PyStr (str "24 C"))] (str "msg")] in
  unified (InputList (l1 ++ l2)) = str "Hello Dad 24 C".
Proof.
  intros l1 l2.
  rewrite (proj1 (unified_app l1 l2 ltac:(discriminate) ltac:(discriminate))).
  reflexivity.
Defined.

Section BareMarkerLemmas.

Lemma first_found_none_intro here :
  forall s,
    (forall p q, s = p ++ q -> here q = None) ->
    first_found here s = None.
Proof.
  induction s as [|c s IH]; intros H; rewrite first_found_unfold.
  - now rewrite (H [] [] eq_refl).
  - rewrite (H [] (c :: s) eq_refl). apply IH.
    intros p q ->. now apply (H (c :: p) q).
Qed.

Lemma digits_only_here st :
  head_group (matches (Group 1 (Repeat 1 (Some 2) digit)) st)
             (digit_group_here (rest st)).
Proof.
  unfold digit_group_here.
  pose proof (group_set_head 1 [SCategory CategoryDigit] 1 (Some 2) st) as H.
  fold digit in H. fold is_digit in H.
  destruct (matches (Group 1 (Repeat 1 (Some 2) digit)) st) as [|m l].
  - destruct (take_run is_digit (Some 2) (rest st)); simpl in *; [trivial|lia].
  - destruct H as (H1 & _ & H3).
    destruct (take_run is_digit (Some 2) (rest st)); [simpl in H1; lia|].
    simpl. now apply group_lookup_head with (gs := groups st).
Qed.

Lemma found_group_map m o :
  found_group m o -> option_map (group 1) m = option_map Some o.
Proof.
  destruct m, o; simpl; try tauto. now intros ->.
Qed.

End BareMarkerLemmas.

(** X16: a "school" with no name after it does not trip the gatekeeper.
    When the lowercased text has no deny-phrase and its only "school" is
    followed to the end by separators without a space, or by nothing,
    the answer is [allowed = True] with the flag off. *)
Theorem gatekeeper_bare_marker_allowed :
  forall input pre seps,
    normalized input = pre ++ str "school" ++ seps ->
    (forall p q, normalized input = p ++ str "school" ++ q -> p = pre) ->
    Forall (fun c => is_sep c = true) seps ->
    ~ In " "%char seps ->
    ~ deny_phrase (normalized input) ->
    gatekeeper_guardrail input
    = Some (mkOutput (info_allowed (unified input)) false).
Proof.
  intros input pre seps Et Honly Hseps Hblank Hd.
  rewrite gatekeeper_cases. cbv zeta.
  destruct (_ || _); [reflexivity|].
  apply deny_phrase_spec in Hd. rewrite Hd.
  assert (Ec : school_capture (normalized input) = None).
  { apply first_found_none_intro. intros p q Epq. unfold capture_here.
    destruct (startswith (str "school") q) eqn:Es; [|reflexivity].
    destruct (startswith_inv _ _ Es) as [r ->].
    pose proof (Honly p r Epq) as ->.
    rewrite Et in Epq. apply app_inv_head in Epq.
    apply (app_inv_head (str "school")) in Epq. subst r.
    change (skipn 6 (str "school" ++ seps)) with seps.
    now apply capture_after_no_blank. }
  now rewrite Ec.
Qed.

Lemma gatekeeper_bare_marker_allowed_witness :
  let input := InputOther (PyStr (str "I love my School:-")) in
  gatekeeper_guardrail input
  = Some (mkOutput (info_allowed (unified input)) false).
Proof.
  intros input.
  apply (gatekeeper_bare_marker_allowed input (str "i love my ") (str ":-")).
  - reflexivity.
  - intros p q E. vm_compute in E.
    do 19 (destruct p as [|? p]; [cbn in E; vm_compute; congruence|]).
    cbn in E. congruence.
  - repeat constructor.
  - intros [H|[H|[]]]; discriminate.
  - no_deny_phrase.
Defined.

(** X17: the unit part of the temperature pattern has no say: on every
    text, searching for the whole pattern and searching for its digit
    group alone either both fail or both succeed with the same group 1,
    which is the first group of one or two digits of the text. *)
Theorem temp_unit_is_inert :
  forall s,
    option_map (group 1) (search temp_pattern s)
    = option_map (group 1) (search (Group 1 (Repeat 1 (Some 2) digit)) s)
    /\ option_map (group 1) (search temp_pattern s)
       = option_map Some (first_digit_group s).
Proof.
  intros s.
  pose proof (found_group_map _ _ (search_temp_pattern s)) as H1.
  assert (H2 : found_group (search (Group 1 (Repeat 1 (Some 2) digit)) s)
                           (first_digit_group s))
    by (apply search_first_found; exact digits_only_here).
  apply found_group_map in H2. split; congruence.
Qed.
